(** * The result cache of the MatchLearn backend ([backend/cache.py])

    A shallow embedding of the [LRUCache] class, of its key derivation and of
    the two memoizing decorators [cache_llm_result] and [cache_api_response],
    followed by the properties of the caching layer.

    Conventions of the embedding:
    - Python values are the inductive [pyval]; text is a [string] whose
      characters stand for the code points U+0000..U+00FF; floating point
      numbers and tuples are not modelled; a dictionary has text keys and is
      the list of its items in insertion order.
    - A call that can raise returns an [outcome].
    - [datetime] values are microseconds since 0001-01-01T00:00:00 as [Z];
      each reading of [datetime.now()] is a parameter of the operation that
      makes it, so every theorem holds whatever the clock shows.
    - A Python object that is mutated in place ([self.cache], the two global
      cache instances) is a value threaded through the operations; argument
      and result values are immutable.
    - An awaited call runs to completion before the next operation starts:
      coroutines are not interleaved.
    - Integers are printed in full, whatever their number of digits. *)

From Stdlib Require Import ZArith List String Ascii Bool Lia Permutation.
From Stdlib Require Import DecimalString DecimalPos DecimalZ OrdersEx RelationClasses.
Import ListNotations.
Open Scope string_scope.
Open Scope Z_scope.

Set Implicit Arguments.
Set Warnings "-register-all".

(* ------------------------------------------------------------------ *)
(** ** Exceptions and outcomes *)

Inductive exn : Type :=
| TypeError
| OverflowError
| Failure (msg : string).   (* whatever the wrapped operation raises *)

Inductive outcome (A : Type) : Type :=
| Ret (a : A)
| Raise (e : exn).

Arguments Ret {A} a.
Arguments Raise {A} e.

Definition bind {A B : Type} (m : outcome A) (k : A -> outcome B) : outcome B :=
  match m with
  | Ret a => k a
  | Raise e => Raise e
  end.

Notation "x <- m ;; k" := (bind m (fun x => k))
  (at level 61, m at next level, right associativity).

Section MapM.

Variables A B : Type.
Variable f : A -> outcome B.

(** A loop that stops at the first exception. *)
Fixpoint mapM (l : list A) : outcome (list B) :=
  match l with
  | [] => Ret []
  | x :: r => y <- f x ;; ys <- mapM r ;; Ret (y :: ys)
  end.

End MapM.

(* ------------------------------------------------------------------ *)
(** ** Python values *)

Inductive pyval : Type :=
| PNone
| PBool (b : bool)
| PInt (z : Z)
| PStr (s : string)
| PList (l : list pyval)
| PDict (d : list (string * pyval))
| PObj (repr : string).   (* any other object, with the text [str] gives it *)

Definition kwargs_t : Type := list (string * pyval).

Fixpoint lookup {V : Type} (k : string) (d : list (string * V)) : option V :=
  match d with
  | [] => None
  | (k', v) :: r => if String.eqb k k' then Some v else lookup k r
  end.

Definition contains {V : Type} (k : string) (d : list (string * V)) : bool :=
  match lookup k d with Some _ => true | None => false end.

Definition keys {V : Type} (d : list (string * V)) : list string := map fst d.

(** [bool(v)] *)
Definition truthy (v : pyval) : bool :=
  match v with
  | PNone => false
  | PBool b => b
  | PInt z => negb (z =? 0)
  | PStr s => negb (String.eqb s "")
  | PList l => match l with [] => false | _ => true end
  | PDict d => match d with [] => false | _ => true end
  | PObj _ => true
  end.

Definition is_none (v : pyval) : bool :=
  match v with PNone => true | _ => false end.

(** [isinstance(v, dict)] *)
Definition is_dict (v : pyval) : bool :=
  match v with PDict _ => true | _ => false end.

(** ["error" in v], for a dictionary [v] *)
Definition has_error_key (v : pyval) : bool :=
  match v with PDict d => contains "error" d | _ => false end.

(* ------------------------------------------------------------------ *)
(** ** [str] and [json.dumps(..., sort_keys=True)] *)

Definition str_of_int (z : Z) : string := NilZero.string_of_int (Z.to_int z).

Definition hex_digit (n : Z) : ascii :=
  if n <? 10 then ascii_of_N (Z.to_N (48 + n)) else ascii_of_N (Z.to_N (87 + n)).

Definition code (c : ascii) : Z := Z.of_N (N_of_ascii c).

Definition chr (n : Z) : ascii := ascii_of_N (Z.to_N n).

Definition str1 (c : ascii) : string := String c EmptyString.

(** One character of [encode_basestring_ascii]: backslash, double quote and
    everything outside [' '..'~'] are escaped. *)
Definition escape_char (c : ascii) : string :=
  let n := code c in
  if n =? 92 then "\\"
  else if n =? 34 then String (chr 92) (str1 (chr 34))
  else if n =? 8 then "\b"
  else if n =? 12 then "\f"
  else if n =? 10 then "\n"
  else if n =? 13 then "\r"
  else if n =? 9 then "\t"
  else if (32 <=? n) && (n <=? 126) then str1 c
  else "\u00" ++ String (hex_digit (n / 16)) (str1 (hex_digit (n mod 16))).

Fixpoint escape (s : string) : string :=
  match s with
  | EmptyString => EmptyString
  | String c r => escape_char c ++ escape r
  end.

Definition quote (s : string) : string :=
  str1 (chr 34) ++ escape s ++ str1 (chr 34).

(** [sep.join(parts)] *)
Fixpoint join (sep : string) (parts : list string) : string :=
  match parts with
  | [] => ""
  | [p] => p
  | p :: r => p ++ sep ++ join sep r
  end.

(** Order of Python text: lexicographic on code points. *)
Definition str_le (a b : string) : bool :=
  match String_as_OT.compare a b with Gt => false | _ => true end.

(** [sorted(d.items())]: the keys of a dictionary are distinct, so the
    comparison of two items is decided by their keys.  Python's sort is
    stable; so is this insertion sort. *)
Fixpoint insert_item {V : Type} (x : string * V) (l : list (string * V))
  : list (string * V) :=
  match l with
  | [] => [x]
  | h :: t => if str_le (fst x) (fst h) then x :: l else h :: insert_item x t
  end.

Fixpoint sorted_items {V : Type} (l : list (string * V)) : list (string * V) :=
  match l with
  | [] => []
  | x :: r => insert_item x (sorted_items r)
  end.

Definition dumps_member (kv : string * string) : string :=
  quote (fst kv) ++ ": " ++ snd kv.

(** [json.dumps(v, sort_keys=True)] with the default separators.  The
    members of a dictionary are serialised and then put in key order; an
    object that is not JSON serialisable raises [TypeError] wherever it
    occurs. *)
Fixpoint dumps (v : pyval) : outcome string :=
  match v with
  | PNone => Ret "null"
  | PBool true => Ret "true"
  | PBool false => Ret "false"
  | PInt z => Ret (str_of_int z)
  | PStr s => Ret (quote s)
  | PList l =>
      parts <- mapM dumps l ;;
      Ret ("[" ++ join ", " parts ++ "]")
  | PDict d =>
      members <- mapM (fun kv => s <- dumps (snd kv) ;; Ret (fst kv, s)) d ;;
      Ret ("{" ++ join ", " (map dumps_member (sorted_items members)) ++ "}")
  | PObj _ => Raise TypeError
  end.

(** The text a value contributes to the key: [str(v)] for a scalar and for
    any other object, [json.dumps(v, sort_keys=True)] for a list or a
    dictionary.  The positional loop and the f-string of the keyword loop
    make the same choice. *)
Definition part (v : pyval) : outcome string :=
  match v with
  | PNone => Ret "None"
  | PBool true => Ret "True"
  | PBool false => Ret "False"
  | PInt z => Ret (str_of_int z)
  | PStr s => Ret s
  | PList _ | PDict _ => dumps v
  | PObj r => Ret r
  end.

(* ------------------------------------------------------------------ *)
(** ** [hashlib.md5(...).hexdigest()] *)

Module MD5.

Definition mask32 : Z := 0xFFFFFFFF.

Definition add32 (a b : Z) : Z := Z.land (a + b) mask32.

Definition not32 (a : Z) : Z := Z.lxor a mask32.

Definition rotl32 (x c : Z) : Z :=
  Z.lor (Z.land (Z.shiftl x c) mask32) (Z.shiftr x (32 - c)).

Definition shifts : list Z :=
  [7; 12; 17; 22; 7; 12; 17; 22; 7; 12; 17; 22; 7; 12; 17; 22;
   5; 9; 14; 20; 5; 9; 14; 20; 5; 9; 14; 20; 5; 9; 14; 20;
   4; 11; 16; 23; 4; 11; 16; 23; 4; 11; 16; 23; 4; 11; 16; 23;
   6; 10; 15; 21; 6; 10; 15; 21; 6; 10; 15; 21; 6; 10; 15; 21].

Definition sines : list Z :=
  [0xd76aa478; 0xe8c7b756; 0x242070db; 0xc1bdceee;
   0xf57c0faf; 0x4787c62a; 0xa8304613; 0xfd469501;
   0x698098d8; 0x8b44f7af; 0xffff5bb1; 0x895cd7be;
   0x6b901122; 0xfd987193; 0xa679438e; 0x49b40821;
   0xf61e2562; 0xc040b340; 0x265e5a51; 0xe9b6c7aa;
   0xd62f105d; 0x02441453; 0xd8a1e681; 0xe7d3fbc8;
   0x21e1cde6; 0xc33707d6; 0xf4d50d87; 0x455a14ed;
   0xa9e3e905; 0xfcefa3f8; 0x676f02d9; 0x8d2a4c8a;
   0xfffa3942; 0x8771f681; 0x6d9d6122; 0xfde5380c;
   0xa4beea44; 0x4bdecfa9; 0xf6bb4b60; 0xbebfbc70;
   0x289b7ec6; 0xeaa127fa; 0xd4ef3085; 0x04881d05;
   0xd9d4d039; 0xe6db99e5; 0x1fa27cf8; 0xc4ac5665;
   0xf4292244; 0x432aff97; 0xab9423a7; 0xfc93a039;
   0x655b59c3; 0x8f0ccc92; 0xffeff47d; 0x85845dd1;
   0x6fa87e4f; 0xfe2ce6e0; 0xa3014314; 0x4e0811a1;
   0xf7537e82; 0xbd3af235; 0x2ad7d2bb; 0xeb86d391].

Record regs : Type := Regs { ra : Z; rb : Z; rc : Z; rd : Z }.

Definition init : regs :=
  Regs 0x67452301 0xefcdab89 0x98badcfe 0x10325476.

(** Message padding: a 1 bit, zeros up to 56 modulo 64 bytes, then the
    bit length as a 64-bit little-endian number. *)
Fixpoint le_bytes (n : nat) (x : Z) : list Z :=
  match n with
  | O => []
  | S n' => Z.land x 255 :: le_bytes n' (Z.shiftr x 8)
  end.

Definition pad (msg : list Z) : list Z :=
  let len := Z.of_nat (List.length msg) in
  let zeros := Z.to_nat ((55 - len) mod 64) in
  (msg ++ [128] ++ repeat 0 zeros ++ le_bytes 8 (Z.land (8 * len) (2 ^ 64 - 1)))%list.

Fixpoint le_words (n : nat) (bytes : list Z) : list Z :=
  match n, bytes with
  | S n', b0 :: b1 :: b2 :: b3 :: r =>
      (b0 + Z.shiftl b1 8 + Z.shiftl b2 16 + Z.shiftl b3 24) :: le_words n' r
  | _, _ => []
  end.

Definition round (m : list Z) (r : regs) (i : Z) : regs :=
  let '(Regs a b c d) := r in
  let f :=
    if i <? 16 then Z.lor (Z.land b c) (Z.land (not32 b) d)
    else if i <? 32 then Z.lor (Z.land d b) (Z.land (not32 d) c)
    else if i <? 48 then Z.lxor b (Z.lxor c d)
    else Z.lxor c (Z.lor b (not32 d)) in
  let g :=
    if i <? 16 then i
    else if i <? 32 then (5 * i + 1) mod 16
    else if i <? 48 then (3 * i + 5) mod 16
    else (7 * i) mod 16 in
  let idx := Z.to_nat i in
  let f' := add32 (add32 (add32 f a) (nth idx sines 0)) (nth (Z.to_nat g) m 0) in
  Regs d (add32 b (rotl32 f' (nth idx shifts 0))) b c.

Definition rounds : list Z := map Z.of_nat (seq 0 64).

Definition block (r : regs) (chunk : list Z) : regs :=
  let m := le_words 16 chunk in
  let r' := fold_left (round m) rounds r in
  Regs (add32 (ra r) (ra r')) (add32 (rb r) (rb r'))
       (add32 (rc r) (rc r')) (add32 (rd r) (rd r')).

Fixpoint blocks (n : nat) (r : regs) (bytes : list Z) : regs :=
  match n with
  | O => r
  | S n' => blocks n' (block r (firstn 64 bytes)) (skipn 64 bytes)
  end.

Definition digest (msg : list Z) : list Z :=
  let p := pad msg in
  let r := blocks (List.length p / 64) init p in
  (le_bytes 4 (ra r) ++ le_bytes 4 (rb r) ++ le_bytes 4 (rc r) ++ le_bytes 4 (rd r))%list.

Fixpoint hex (bytes : list Z) : string :=
  match bytes with
  | [] => EmptyString
  | b :: r => String (hex_digit (b / 16)) (String (hex_digit (b mod 16)) (hex r))
  end.

End MD5.

(** [s.encode()]: UTF-8, one byte below U+0080 and two from there to U+00FF. *)
Fixpoint encode (s : string) : list Z :=
  match s with
  | EmptyString => []
  | String c r =>
      let n := code c in
      if n <? 128 then n :: encode r
      else (192 + n / 64) :: (128 + n mod 64) :: encode r
  end.

Definition md5_hexdigest (s : string) : string := MD5.hex (MD5.digest (encode s)).

(* ------------------------------------------------------------------ *)
(** ** Key derivation: [LRUCache._generate_key] *)

Definition kw_part (kv : string * pyval) : outcome string :=
  s <- part (snd kv) ;; Ret (fst kv ++ ":" ++ s).

(** The text that is hashed: the parts of the positional arguments, then
    those of the keyword arguments in the order of their names, joined by a
    pipe. *)
Definition key_string (args : list pyval) (kwargs : kwargs_t) : outcome string :=
  pos <- mapM part args ;;
  kws <- mapM kw_part (sorted_items kwargs) ;;
  Ret (join "|" (pos ++ kws)%list).

Definition _generate_key (args : list pyval) (kwargs : kwargs_t) : outcome string :=
  s <- key_string args kwargs ;; Ret (md5_hexdigest s).

(* ------------------------------------------------------------------ *)
(** ** Dates and durations *)

(** [datetime.max], 9999-12-31T23:59:59.999999, in microseconds. *)
Definition datetime_max : Z := 3652059 * 86400 * 1000000 - 1.

Definition valid_datetime (t : Z) : Prop := 0 <= t <= datetime_max.

(** [timedelta(seconds=ttl)], in microseconds: a number of seconds whose
    days exceed 999999999 in magnitude overflows, a value that is not a
    number is a type error. *)
Definition timedelta_seconds (ttl : pyval) : outcome Z :=
  match ttl with
  | PInt s =>
      if (-999999999 <=? s / 86400) && (s / 86400 <=? 999999999)
      then Ret (s * 1000000) else Raise OverflowError
  | PBool b => Ret (if b then 1000000 else 0)
  | _ => Raise TypeError
  end.

(** [t + delta] on a [datetime] *)
Definition datetime_add (t delta : Z) : outcome Z :=
  if (0 <=? t + delta) && (t + delta <=? datetime_max)
  then Ret (t + delta) else Raise OverflowError.

(* ------------------------------------------------------------------ *)
(** ** The [OrderedDict] operations the store uses

    The dictionary is the list of its items, oldest first. *)

Section OrderedDict.

Variable V : Type.

Fixpoint od_delete (k : string) (d : list (string * V)) : list (string * V) :=
  match d with
  | [] => []
  | (k', v) :: r => if String.eqb k k' then r else (k', v) :: od_delete k r
  end.

(** [d[k] = v]: an existing key keeps its position. *)
Fixpoint od_assign (k : string) (v : V) (d : list (string * V)) : list (string * V) :=
  match d with
  | [] => [(k, v)]
  | (k', v') :: r =>
      if String.eqb k k' then (k, v) :: r else (k', v') :: od_assign k v r
  end.

(** [d.move_to_end(k)], for a key that is present. *)
Definition od_move_to_end (k : string) (d : list (string * V)) : list (string * V) :=
  match lookup k d with
  | Some v => (od_delete k d ++ [(k, v)])%list
  | None => d
  end.

(** [d.popitem(last=False)], for a dictionary that is not empty. *)
Definition od_popitem_first (d : list (string * V)) : list (string * V) := tl d.

End OrderedDict.

(* ------------------------------------------------------------------ *)
(** ** [class LRUCache] *)

Record entry : Type := Entry {
  value : pyval;
  expires_at : Z;
  created_at : Z
}.

Record LRUCache : Type := MkLRUCache {
  cache : list (string * entry);
  max_size : Z;
  default_ttl : Z
}.

Definition with_cache (self : LRUCache) (c : list (string * entry)) : LRUCache :=
  MkLRUCache c (max_size self) (default_ttl self).

Definition __init__ (max_size default_ttl : Z) : LRUCache :=
  MkLRUCache [] max_size default_ttl.

(** [get(self, *args, **kwargs)]; [now] is the reading of the clock made
    when the key is present.  A miss returns [None]. *)
Definition get (self : LRUCache) (args : list pyval) (kwargs : kwargs_t) (now : Z)
  : outcome (pyval * LRUCache) :=
  key <- _generate_key args kwargs ;;
  match lookup key (cache self) with
  | None => Ret (PNone, self)
  | Some item =>
      if expires_at item <? now
      then Ret (PNone, with_cache self (od_delete key (cache self)))
      else Ret (value item, with_cache self (od_move_to_end key (cache self)))
  end.

(** [set(self, value, *args, ttl=None, **kwargs)]; [now] and [now'] are the
    two readings of the clock, for [expires_at] and for [created_at]. *)
Definition set (self : LRUCache) (v : pyval) (args : list pyval) (ttl : pyval)
  (kwargs : kwargs_t) (now now' : Z) : outcome LRUCache :=
  key <- _generate_key args kwargs ;;
  let ttl := if is_none ttl then PInt (default_ttl self) else ttl in
  delta <- timedelta_seconds ttl ;;
  expires <- datetime_add now delta ;;
  let c1 := od_assign key (Entry v expires now') (cache self) in
  let c2 := od_move_to_end key c1 in
  let c3 := if Z.of_nat (List.length c2) >? max_size self
            then od_popitem_first c2 else c2 in
  Ret (with_cache self c3).

Definition clear (self : LRUCache) : LRUCache := with_cache self [].

Definition size (self : LRUCache) : Z := Z.of_nat (List.length (cache self)).

(** [cleanup(self)]: the keys of the expired entries are collected first and
    deleted one by one afterwards. *)
Definition cleanup (self : LRUCache) (now : Z) : Z * LRUCache :=
  let keys_to_remove :=
    map fst (filter (fun kv => expires_at (snd kv) <? now) (cache self)) in
  let step (st : Z * list (string * entry)) (key : string) :=
    (fst st + 1, od_delete key (snd st)) in
  let '(removed, c) := fold_left step keys_to_remove (0, cache self) in
  (removed, with_cache self c).

(* ------------------------------------------------------------------ *)
(** ** The global instances and the memoizing decorators *)

(** The state a wrapped call runs in: the two module-level caches and the
    rest of the program, of which nothing is assumed. *)
Record World (St : Type) : Type := MkWorld {
  llm_cache : LRUCache;
  api_cache : LRUCache;
  rest : St
}.

Arguments MkWorld {St} _ _ _.

Definition initial_world {St : Type} (s : St) : World St :=
  MkWorld (__init__ 500 86400) (__init__ 1000 300) s.

(** A computation that reads and updates the world and may raise. *)
Definition M (St A : Type) : Type := World St -> outcome A * World St.

Definition mret {St A : Type} (a : A) : M St A := fun w => (Ret a, w).

Definition mbind {St A B : Type} (m : M St A) (k : A -> M St B) : M St B :=
  fun w =>
    match m w with
    | (Ret a, w') => k a w'
    | (Raise e, w') => (Raise e, w')
    end.

Notation "x <~ m ;; k" := (mbind m (fun x => k))
  (at level 61, m at next level, right associativity).

(** An [async def] function: called with positional and keyword arguments,
    run to completion by [await]. *)
Definition afun (St : Type) : Type := list pyval -> kwargs_t -> M St pyval.

(** The readings of [datetime.now()] that one wrapped call can make: in
    [get], and twice in [set]. *)
Record Clock : Type := MkClock {
  at_get : Z;
  at_set : Z;
  at_created : Z
}.

Fixpoint without {V : Type} (k : string) (d : list (string * V)) : list (string * V) :=
  match d with
  | [] => []
  | (k', v) :: r => if String.eqb k k' then without k r else (k', v) :: without k r
  end.

Section Decorators.

Variable St : Type.

(** [llm_cache.get] on [*args, **kwargs]: a keyword named [self] clashes with
    the receiver. *)
Definition llm_get (args : list pyval) (kwargs : kwargs_t) (clk : Clock) : M St pyval :=
  fun w =>
    if contains "self" kwargs then (Raise TypeError, w)
    else match get (llm_cache w) args kwargs (at_get clk) with
         | Ret (v, c) => (Ret v, MkWorld c (api_cache w) (rest w))
         | Raise e => (Raise e, w)
         end.

(** [llm_cache.set(result, *args, **kwargs)]: keywords named [self] or
    [value] clash with the positional parameters, and a keyword named [ttl]
    is taken by the parameter of that name. *)
Definition llm_set (result : pyval) (args : list pyval) (kwargs : kwargs_t)
  (clk : Clock) : M St unit :=
  fun w =>
    if contains "self" kwargs || contains "value" kwargs then (Raise TypeError, w)
    else
      let ttl := match lookup "ttl" kwargs with Some t => t | None => PNone end in
      match set (llm_cache w) result args ttl (without "ttl" kwargs)
                (at_set clk) (at_created clk) with
      | Ret c => (Ret tt, MkWorld c (api_cache w) (rest w))
      | Raise e => (Raise e, w)
      end.

(** [api_cache.get(func.__name__, *args, **kwargs)] *)
Definition api_get (name : string) (args : list pyval) (kwargs : kwargs_t)
  (clk : Clock) : M St pyval :=
  fun w =>
    if contains "self" kwargs then (Raise TypeError, w)
    else match get (api_cache w) (PStr name :: args) kwargs (at_get clk) with
         | Ret (v, c) => (Ret v, MkWorld (llm_cache w) c (rest w))
         | Raise e => (Raise e, w)
         end.

(** [api_cache.set(result, func.__name__, *args, ttl=ttl, **kwargs)]: a
    keyword named [ttl] would be given twice. *)
Definition api_set (result : pyval) (name : string) (args : list pyval) (ttl : Z)
  (kwargs : kwargs_t) (clk : Clock) : M St unit :=
  fun w =>
    if contains "self" kwargs || contains "value" kwargs || contains "ttl" kwargs
    then (Raise TypeError, w)
    else
      match set (api_cache w) result (PStr name :: args) (PInt ttl) kwargs
                (at_set clk) (at_created clk) with
      | Ret c => (Ret tt, MkWorld (llm_cache w) c (rest w))
      | Raise e => (Raise e, w)
      end.

(** ["force_analyze" in kwargs and kwargs["force_analyze"]], as a condition *)
Definition forced (kwargs : kwargs_t) : bool :=
  match lookup "force_analyze" kwargs with
  | Some v => truthy v
  | None => false
  end.

(** The [wrapper] that [cache_llm_result(func)] returns. *)
Definition cache_llm_result (func : afun St) (args : list pyval) (kwargs : kwargs_t)
  (clk : Clock) : M St pyval :=
  if forced kwargs then func args kwargs
  else
    cached_result <~ llm_get args kwargs clk ;;
    if negb (is_none cached_result) then mret cached_result
    else
      result <~ func args kwargs ;;
      if is_dict result && negb (has_error_key result)
      then _ <~ llm_set result args kwargs clk ;; mret result
      else mret result.

(** The [wrapper] that [cache_api_response(ttl)(func)] returns; [name] is
    [func.__name__]. *)
Definition cache_api_response (ttl : Z) (name : string) (func : afun St)
  (args : list pyval) (kwargs : kwargs_t) (clk : Clock) : M St pyval :=
  cached_result <~ api_get name args kwargs clk ;;
  if negb (is_none cached_result) then mret cached_result
  else
    result <~ func args kwargs ;;
    if negb (is_dict result) || negb (has_error_key result)
    then _ <~ api_set result name args ttl kwargs clk ;; mret result
    else mret result.

End Decorators.


(* ------------------------------------------------------------------ *)
(** * The PDF text extraction ([backend/services/parser_service.py])

    [PdfReader] belongs to PyPDF2: it is a parameter of the embedding.  It
    returns the pages of the document or raises; a page is what its
    [extract_text()] does, which is to return a text or to raise.  The
    content of a file is the list of its bytes. *)

Section ParserService.

(** What PyPDF2 can raise. *)
Variable E : Type.

(** What a call of this module raises: the [ValueError] of the size check,
    or an exception of the reader, handed on unchanged by the [except]
    clause. *)
Inductive pdf_exn : Type :=
| ValueError (msg : string)
| ReaderError (e : E).

Inductive pdf_outcome (A : Type) : Type :=
| PdfRet (a : A)
| PdfRaise (e : pdf_exn).

Arguments PdfRet {A} a.
Arguments PdfRaise {A} e.

Definition Page : Type := pdf_outcome string.

(** The loop over [enumerate(reader.pages)], from the index [i] on. *)
Fixpoint extract_pages (max_pages i : Z) (pages : list Page) (text_parts : list string)
  : pdf_outcome (list string) :=
  match pages with
  | [] => PdfRet text_parts
  | page :: pages' =>
      if i >=? max_pages then PdfRet text_parts
      else
        match page with
        | PdfRaise e => PdfRaise e
        | PdfRet page_text =>
            extract_pages max_pages (i + 1) pages'
              (if truthy (PStr page_text)
               then (text_parts ++ [page_text])%list else text_parts)
        end
  end.

Definition extract_text_from_pdf (PdfReader : list Z -> pdf_outcome (list Page))
  (file_content : list Z) (max_pages : Z) : pdf_outcome string :=
  if Z.of_nat (List.length file_content) >? 10 * 1024 * 1024
  then PdfRaise (ValueError "PDF file too large (max 10MB)")
  else
    match PdfReader file_content with
    | PdfRaise e => PdfRaise e
    | PdfRet pages =>
        match extract_pages max_pages 0 pages [] with
        | PdfRaise e => PdfRaise e
        | PdfRet text_parts => PdfRet (join (str1 (chr 10)) text_parts)
        end
    end.

End ParserService.

Arguments ValueError {E} msg.
Arguments ReaderError {E} e.
Arguments PdfRet {E A} a.
Arguments PdfRaise {E A} e.

(* ------------------------------------------------------------------ *)
(** * The functions that ask the model ([backend/services/llm_service.py])

    Each of the four functions is decorated with [cache_llm_result].  The
    request to the model and the decoding of its answer are parameters of
    the embedding; the binding of the arguments and the checks that come
    before the request are modelled. *)

(** The parameters of a [def]: names, with the default value if there is
    one.  All the parameters of this module can be given by position or by
    name. *)
Definition signature : Type := list (string * option pyval).

(** Positional arguments are bound from the left; one too many is a
    [TypeError].  The parameters that are left come back. *)
Fixpoint bind_positional (params : signature) (args : list pyval)
  : outcome (list (string * pyval) * signature) :=
  match args, params with
  | [], _ => Ret ([], params)
  | _ :: _, [] => Raise TypeError
  | a :: args', (p, _) :: params' =>
      r <- bind_positional params' args' ;;
      Ret ((p, a) :: fst r, snd r)
  end.

(** The parameters left take their keyword argument, or their default; one
    with neither is a [TypeError]. *)
Fixpoint bind_keywords (params : signature) (kwargs : kwargs_t)
  : outcome (list (string * pyval)) :=
  match params with
  | [] => Ret []
  | (p, default) :: params' =>
      match lookup p kwargs, default with
      | Some v, _ => r <- bind_keywords params' kwargs ;; Ret ((p, v) :: r)
      | None, Some d => r <- bind_keywords params' kwargs ;; Ret ((p, d) :: r)
      | None, None => Raise TypeError
      end
  end.

(** A call with positional and keyword arguments of a function with the
    parameters [params]: a
    keyword that names no parameter, or one already given by position, is a
    [TypeError]. *)
Definition bind_arguments (params : signature) (args : list pyval) (kwargs : kwargs_t)
  : outcome (list (string * pyval)) :=
  r <- bind_positional params args ;;
  if existsb (fun kv => negb (contains (fst kv) (snd r))) kwargs
  then Raise TypeError
  else more <- bind_keywords (snd r) kwargs ;; Ret (fst r ++ more)%list.

(** The value of a bound parameter. *)
Definition param (p : string) (bound : list (string * pyval)) : pyval :=
  match lookup p bound with Some v => v | None => PNone end.

(** [d.get(key, default)] *)
Definition dict_get (d : pyval) (key : string) (default : pyval) : pyval :=
  match d with
  | PDict items => match lookup key items with Some v => v | None => default end
  | _ => default
  end.

Section LLMService.

Variable St : Type.

(** A function body, from the bound parameters. *)
Definition body_t : Type := list (string * pyval) -> M St pyval.

Definition def (params : signature) (body : body_t) : afun St :=
  fun args kwargs w =>
    match bind_arguments params args kwargs with
    | Ret bound => body bound w
    | Raise e => (Raise e, w)
    end.

(** [parse_resume(resume_text)] and [parse_jd(jd_text)]; [request] is the
    body, which asks the model. *)
Definition parse_resume (request : body_t) : afun St :=
  def [("resume_text", None)] request.

Definition parse_jd (request : body_t) : afun St :=
  def [("jd_text", None)] request.

(** [analyze_gap(resume_json, jd_json, completed_courses=None)]: the two
    checks of the input come first; [request] is the rest of the body.  The
    Chinese messages are kept as the bytes of their UTF-8 encoding. *)
Definition analyze_gap (request : body_t) : afun St :=
  def [("resume_json", None); ("jd_json", None); ("completed_courses", Some PNone)]
    (fun bound =>
       let resume_json := param "resume_json" bound in
       let jd_json := param "jd_json" bound in
       if is_dict resume_json && has_error_key resume_json then
         mret (PDict
           [("overall_score", PInt 0);
            ("radar_data", PDict []);
            ("gap_details",
             PList [PDict
               [("missing_skill", PStr "简历数据不完整");
                ("importance", PStr "高");
                ("recommendation",
                 dict_get resume_json "error"
                   (PStr "简历解析失败，请检查简历文件格式"));
                ("recommendation_type", PStr "course")]]);
            ("summary", PStr "简历解析失败，无法进行技能匹配分析")])
       else if is_dict jd_json && has_error_key jd_json then
         mret (PDict
           [("overall_score", PInt 0);
            ("radar_data", PDict []);
            ("gap_details",
             PList [PDict
               [("missing_skill", PStr "职位描述数据不完整");
                ("importance", PStr "高");
                ("recommendation",
                 dict_get jd_json "error"
                   (PStr "职位描述解析失败，请检查JD文件格式"));
                ("recommendation_type", PStr "course")]]);
            ("summary", PStr "职位描述解析失败，无法进行技能匹配分析")])
       else request bound).

(** [generate_resume_content(task_description, course_title)]: every
    [return] of the body gives a text; [request] computes it. *)
Definition generate_resume_content
  (request : list (string * pyval) -> M St string) : afun St :=
  def [("task_description", None); ("course_title", None)]
    (fun bound => content <~ request bound ;; mret (PStr content)).

End LLMService.

(* ------------------------------------------------------------------ *)
(** * The upload of a resume ([upload_resume] in [backend/main.py])

    The checks that the handler makes before it extracts the text.  An
    uploaded file is the list of the bytes that have not been read yet;
    what the handler does with the content once the checks have passed,
    from the text extraction on, is the parameter [process]. *)

Inductive upload_outcome (R : Type) : Type :=
| HTTPException (status_code : Z) (detail : string)
| Proceeds (r : R).

Arguments HTTPException {R} status_code detail.
Arguments Proceeds {R} r.

(** [await file.read(size)]: at most [size] bytes, and the file past
    them. *)
Definition file_read (size : Z) (file : list Z) : list Z * list Z :=
  (firstn (Z.to_nat size) file, skipn (Z.to_nat size) file).

Definition upload_resume {R : Type} (process : list Z -> R)
  (user_id current_user_id : Z) (content_type : string) (file : list Z)
  : upload_outcome R :=
  if negb (user_id =? current_user_id)
  then HTTPException 403 "Not authorized to upload for this user"
  else if negb (String.eqb content_type "application/pdf")
  then HTTPException 400 "Only PDF files are supported."
  else
    let (content, file1) := file_read (10 * 1024 * 1024) file in
    match fst (file_read 1 file1) with
    | _ :: _ => HTTPException 400 "PDF file too large (max 10MB)"
    | [] => Proceeds (process content)
    end.

(* ================================================================== *)
(** * Vocabulary of the statements *)

Unset Implicit Arguments.

(** Representation invariant of the dictionary: each key occurs once. *)
Definition wf (c : LRUCache) : Prop := NoDup (keys (cache c)).

(** The states a cache built by [LRUCache(m, d)] can be in. *)
Inductive reachable (m d : Z) : LRUCache -> Prop :=
| reach_init : reachable m d (__init__ m d)
| reach_get c args kwargs now v c' :
    reachable m d c -> get c args kwargs now = Ret (v, c') -> reachable m d c'
| reach_set c v args ttl kwargs now now' c' :
    reachable m d c -> set c v args ttl kwargs now now' = Ret c' ->
    reachable m d c'
| reach_clear c : reachable m d c -> reachable m d (clear c)
| reach_cleanup c now : reachable m d c -> reachable m d (snd (cleanup c now)).

(** What [set] leaves in the dictionary: the entry at the end, and the
    oldest entry dropped when the size is over the bound. *)
Definition stored (m : Z) (key : string) (e : entry) (d : list (string * entry))
  : list (string * entry) :=
  let d' := (od_delete key d ++ [(key, e)])%list in
  if Z.of_nat (List.length d') >? m then tl d' else d'.

Definition expired (now : Z) (kv : string * entry) : bool :=
  expires_at (snd kv) <? now.

(** No time to live has elapsed: every reading of the clock made by a [get]
    is at most the expiry time of every entry written, for entries written
    at the readings [sets] with a time to live of [d] seconds. *)
Definition none_elapsed (d : Z) (sets gets : list Z) : Prop :=
  forall t g, In t sets -> In g gets -> g <= t + d * 1000000.

(** ** Concrete instances *)

(** [c.set(v, *args, ttl=ttl)] at the clock reading [now], for a call that
    returns. *)
Definition set_at (c : LRUCache) (v : pyval) (args : list pyval) (ttl now : Z)
  : LRUCache :=
  match set c v args (PInt ttl) [] now now with
  | Ret c' => c'
  | Raise _ => c
  end.

(** Three entries that live one second and two that live a hundred, all
    written at time 0. *)
Definition five_entries : LRUCache :=
  let c0 := __init__ 10 3600 in
  let c1 := set_at c0 (PInt 1) [PStr "a"] 1 0 in
  let c2 := set_at c1 (PInt 2) [PStr "b"] 100 0 in
  let c3 := set_at c2 (PInt 3) [PStr "c"] 1 0 in
  let c4 := set_at c3 (PInt 4) [PStr "d"] 100 0 in
  set_at c4 (PInt 5) [PStr "e"] 1 0.

(** ** Arguments up to insertion order *)

Definition same_item (R : pyval -> pyval -> Prop) (a b : string * pyval) : Prop :=
  fst a = fst b /\ R (snd a) (snd b).

(** Two values that are structurally equal: the same scalars, lists of
    equal items, dictionaries with the same items whatever the order in
    which they were inserted. *)
Inductive same_value : pyval -> pyval -> Prop :=
| same_none : same_value PNone PNone
| same_bool b : same_value (PBool b) (PBool b)
| same_int z : same_value (PInt z) (PInt z)
| same_str s : same_value (PStr s) (PStr s)
| same_obj r : same_value (PObj r) (PObj r)
| same_list l1 l2 :
    Forall2 same_value l1 l2 -> same_value (PList l1) (PList l2)
| same_dict d1 d d2 :
    Forall2 (same_item same_value) d1 d -> Permutation d d2 ->
    same_value (PDict d1) (PDict d2).

(** Every dictionary inside the value holds each key once. *)
Inductive distinct_keys : pyval -> Prop :=
| dk_none : distinct_keys PNone
| dk_bool b : distinct_keys (PBool b)
| dk_int z : distinct_keys (PInt z)
| dk_str s : distinct_keys (PStr s)
| dk_obj r : distinct_keys (PObj r)
| dk_list l : Forall distinct_keys l -> distinct_keys (PList l)
| dk_dict d :
    NoDup (keys d) -> Forall (fun kv => distinct_keys (snd kv)) d ->
    distinct_keys (PDict d).

(** ** Text without the separator *)








(** One member of a dictionary, serialised. *)
Definition member (kv : string * pyval) : outcome (string * string) :=
  s <- dumps (snd kv) ;; Ret (fst kv, s).

(** ** Wrapped operations and calls *)

(** An operation that counts its executions in the rest of the world,
    leaves the caches alone and always ends in [r]. *)
Definition counting (r : outcome pyval) : afun nat :=
  fun _ _ w => (r, MkWorld (llm_cache w) (api_cache w) (S (rest w))).

(** Keyword arguments none of which is taken by a parameter of [get] or of
    [set]. *)
Definition ordinary (kwargs : kwargs_t) : bool :=
  negb (contains "self" kwargs || contains "value" kwargs || contains "ttl" kwargs).

(** The cache [c] can take a new entry that lives [ttl] seconds from the
    reading [at_set clk]. *)
Definition can_store (c : LRUCache) (ttl : Z) (clk : Clock) : Prop :=
  wf c /\ 0 < max_size c /\
  valid_datetime (at_set clk) /\ valid_datetime (at_set clk + ttl * 1000000).

(** What the wrappers do once the lookup has missed: call the function and
    cache the result. *)
Definition llm_call_and_cache {St : Type} (func : afun St) (args : list pyval)
  (kwargs : kwargs_t) (clk : Clock) : M St pyval :=
  result <~ func args kwargs ;;
  if is_dict result && negb (has_error_key result)
  then _ <~ llm_set result args kwargs clk ;; mret result
  else mret result.

Definition api_call_and_cache {St : Type} (ttl : Z) (name : string) (func : afun St)
  (args : list pyval) (kwargs : kwargs_t) (clk : Clock) : M St pyval :=
  result <~ func args kwargs ;;
  if negb (is_dict result) || negb (has_error_key result)
  then _ <~ api_set result name args ttl kwargs clk ;; mret result
  else mret result.

(** The function does not touch [llm_cache]. *)
Definition leaves_llm_cache {St : Type} (func : afun St) : Prop :=
  forall args kwargs w, llm_cache (snd (func args kwargs w)) = llm_cache w.


(** A clock that always shows the first instant, and the world at start-up
    with a counter of executions at zero. *)
Definition clock0 : Clock := MkClock 0 0 0.

Definition world0 : World nat := initial_world 0%nat.

(** ** A series of insertions *)

(** One call [c.set(v, *args, ttl=ttl, **kwargs)], with the two readings of
    the clock it makes. *)
Record insertion : Type := Insertion {
  ins_value : pyval;
  ins_args : list pyval;
  ins_kwargs : kwargs_t;
  ins_ttl : Z;
  ins_now : Z;
  ins_created : Z
}.

Definition ins_expiry (i : insertion) : Z := ins_now i + ins_ttl i * 1000000.

Definition ins_key (i : insertion) : outcome string :=
  _generate_key (ins_args i) (ins_kwargs i).

Fixpoint set_all (c : LRUCache) (l : list insertion) : outcome LRUCache :=
  match l with
  | [] => Ret c
  | i :: r =>
      c' <- set c (ins_value i) (ins_args i) (PInt (ins_ttl i)) (ins_kwargs i)
                (ins_now i) (ins_created i) ;;
      set_all c' r
  end.

(** The time to live of the insertion is over at [now]. *)
Definition past_due (now : Z) (i : insertion) : bool := ins_expiry i <? now.

(** ** Shape of keys and of arguments *)

Definition is_hex (c : ascii) : bool :=
  let n := code c in
  ((48 <=? n) && (n <=? 57)) || ((97 <=? n) && (n <=? 102)).

Fixpoint all_chars (p : ascii -> bool) (s : string) : bool :=
  match s with
  | EmptyString => true
  | String c r => p c && all_chars p r
  end.

(** Values that [json.dumps] serialises: no object that is not JSON data
    at any depth. *)
Inductive json_data : pyval -> Prop :=
| jd_none : json_data PNone
| jd_bool b : json_data (PBool b)
| jd_int z : json_data (PInt z)
| jd_str s : json_data (PStr s)
| jd_list l : Forall json_data l -> json_data (PList l)
| jd_dict d : Forall (fun kv => json_data (snd kv)) d -> json_data (PDict d).

(** Values from which a part of the key can be made: anything but a list or
    a dictionary that holds, at some depth, an object that is not JSON
    data. *)
Definition keyable (v : pyval) : Prop :=
  match v with
  | PList _ | PDict _ => json_data v
  | _ => True
  end.

(** The function does not touch [api_cache]. *)
Definition leaves_api_cache {St : Type} (func : afun St) : Prop :=
  forall args kwargs w, api_cache (snd (func args kwargs w)) = api_cache w.

(** A result that [cache_llm_result] writes back. *)
Definition llm_cacheable (result : pyval) : bool :=
  is_dict result && negb (has_error_key result).

(** A result that [cache_api_response] writes back. *)
Definition api_cacheable (result : pyval) : bool :=
  negb (is_dict result) || negb (has_error_key result).

(** An outcome that [cache_llm_result] does not write back: an exception,
    or a result that is not cacheable. *)
Definition llm_failure (r : outcome pyval) : Prop :=
  match r with
  | Raise _ => True
  | Ret result => llm_cacheable result = false
  end.

Definition api_failure (r : outcome pyval) : Prop :=
  match r with
  | Raise _ => True
  | Ret result => api_cacheable result = false
  end.

(** The texts of the pages in order, or the first exception that a page
    raises. *)
Fixpoint page_texts {E : Type} (pages : list (Page E)) : pdf_outcome E (list string) :=
  match pages with
  | [] => PdfRet []
  | PdfRaise e :: _ => PdfRaise e
  | PdfRet t :: r =>
      match page_texts r with
      | PdfRet l => PdfRet (t :: l)
      | PdfRaise e => PdfRaise e
      end
  end.

Definition newline : string := str1 (chr 10).

Definition nonempty (s : string) : bool := negb (String.eqb s "").

(** The largest content that [extract_text_from_pdf] accepts, in bytes. *)
Definition size_limit : Z := 10 * 1024 * 1024.

(* ================================================================== *)
(** * Properties *)

(** ** The hash agrees with the MD5 test suite *)

Example md5_empty : md5_hexdigest "" = "d41d8cd98f00b204e9800998ecf8427e".
Proof. vm_compute. reflexivity. Qed.

Example md5_abc : md5_hexdigest "abc" = "900150983cd24fb0d6963f7d28e17f72".
Proof. vm_compute. reflexivity. Qed.

Example md5_two_blocks :
  md5_hexdigest
    "12345678901234567890123456789012345678901234567890123456789012345678901234567890"
  = "57edf4a22be3c955ac49da2e2107b67a".
Proof. vm_compute. reflexivity. Qed.

(** ** Association lists with distinct keys *)


Section AssocFacts.

Variable V : Type.
Implicit Types (d : list (string * V)) (k : string).

Lemma lookup_None_iff d k : lookup k d = None <-> ~ In k (keys d).
Proof.
  induction d as [|[k' v] r IH]; simpl.
  - tauto.
  - destruct (String.eqb_spec k k') as [->|Hne].
    + split; [discriminate | intros H; exfalso; apply H; now left].
    + rewrite IH. split; [intros H [E|E]; [congruence | tauto] | tauto].
Qed.


Lemma lookup_app d d' k :
  lookup k (d ++ d') = match lookup k d with Some v => Some v | None => lookup k d' end.
Proof.
  induction d as [|[k' v] r IH]; simpl; trivial.
  destruct (String.eqb k k'); trivial.
Qed.

Lemma keys_app d d' : keys (d ++ d') = (keys d ++ keys d')%list.
Proof. unfold keys. apply map_app. Qed.

Lemma in_keys_od_delete d k x : In x (keys (od_delete k d)) -> In x (keys d).
Proof.
  induction d as [|[k' v] r IH]; simpl; trivial.
  destruct (String.eqb k k'); simpl; tauto.
Qed.

Lemma NoDup_od_delete d k : NoDup (keys d) -> NoDup (keys (od_delete k d)).
Proof.
  induction d as [|[k' v] r IH]; simpl; trivial.
  intros H. inversion H as [|? ? Hn Hr]; subst.
  destruct (String.eqb k k'); simpl; trivial.
  constructor; auto. intros Hin. apply Hn. eapply in_keys_od_delete; eauto.
Qed.

Lemma lookup_od_delete_eq d k : NoDup (keys d) -> lookup k (od_delete k d) = None.
Proof.
  induction d as [|[k' v] r IH]; simpl; trivial.
  intros H. inversion H as [|? ? Hn Hr]; subst.
  destruct (String.eqb_spec k k') as [->|Hne].
  - now apply lookup_None_iff.
  - simpl. destruct (String.eqb_spec k k'); [congruence | auto].
Qed.

Lemma lookup_od_delete_neq d k k' : k <> k' -> lookup k' (od_delete k d) = lookup k' d.
Proof.
  intros Hne. induction d as [|[k0 v] r IH]; simpl; trivial.
  destruct (String.eqb_spec k k0) as [->|Hk].
  - destruct (String.eqb_spec k' k0); [congruence | trivial].
  - simpl. destruct (String.eqb k' k0); trivial.
Qed.

Lemma lookup_od_assign_eq d k v : lookup k (od_assign k v d) = Some v.
Proof.
  induction d as [|[k0 v0] r IH]; simpl.
  - now rewrite String.eqb_refl.
  - destruct (String.eqb_spec k k0) as [->|Hk]; simpl.
    + now rewrite String.eqb_refl.
    + destruct (String.eqb_spec k k0); [congruence | trivial].
Qed.

Lemma lookup_od_assign_neq d k k' v : k <> k' -> lookup k' (od_assign k v d) = lookup k' d.
Proof.
  intros Hne. induction d as [|[k0 v0] r IH]; simpl.
  - destruct (String.eqb_spec k' k); [congruence | trivial].
  - destruct (String.eqb_spec k k0) as [->|Hk]; simpl.
    + destruct (String.eqb_spec k' k0); [congruence | trivial].
    + destruct (String.eqb k' k0); trivial.
Qed.

Lemma in_keys_od_assign d k v x : In x (keys (od_assign k v d)) -> x = k \/ In x (keys d).
Proof.
  induction d as [|[k0 v0] r IH]; simpl.
  - intros [E|[]]; auto.
  - destruct (String.eqb_spec k k0) as [->|Hk]; simpl; intuition.
Qed.

Lemma NoDup_od_assign d k v : NoDup (keys d) -> NoDup (keys (od_assign k v d)).
Proof.
  induction d as [|[k0 v0] r IH]; simpl; intros H.
  - constructor; [intros [] | constructor].
  - inversion H as [|? ? Hn Hr]; subst.
    destruct (String.eqb_spec k k0) as [->|Hk]; simpl.
    + now constructor.
    + constructor; auto. intros Hin. apply in_keys_od_assign in Hin.
      destruct Hin; [congruence | tauto].
Qed.

Lemma length_od_assign d k v :
  List.length (od_assign k v d) =
  if contains k d then List.length d else S (List.length d).
Proof.
  unfold contains. induction d as [|[k0 v0] r IH]; simpl; trivial.
  destruct (String.eqb k k0); simpl; trivial.
  rewrite IH. destruct (lookup k r); trivial.
Qed.

Lemma length_od_delete d k :
  List.length (od_delete k d) =
  if contains k d then Nat.pred (List.length d) else List.length d.
Proof.
  unfold contains. induction d as [|[k0 v0] r IH]; simpl; trivial.
  destruct (String.eqb k k0); simpl; trivial.
  rewrite IH. destruct (lookup k r) eqn:E; trivial.
  destruct r; [discriminate | trivial].
Qed.

Lemma length_od_move_to_end d k :
  List.length (od_move_to_end k d) = List.length d.
Proof.
  unfold od_move_to_end. destruct (lookup k d) eqn:E; trivial.
  rewrite length_app, length_od_delete. unfold contains. rewrite E. simpl.
  destruct d; [discriminate | simpl; lia].
Qed.

Lemma NoDup_od_move_to_end d k : NoDup (keys d) -> NoDup (keys (od_move_to_end k d)).
Proof.
  intros H. unfold od_move_to_end. destruct (lookup k d) eqn:E; trivial.
  rewrite keys_app. simpl.
  apply NoDup_app; [now apply NoDup_od_delete | constructor; [intros [] | constructor] |].
  intros x Hx [<-|[]].
  pose proof (lookup_od_delete_eq d k H) as Hd.
  apply lookup_None_iff in Hd. tauto.
Qed.

Lemma lookup_od_move_to_end d k k' :
  NoDup (keys d) -> lookup k' (od_move_to_end k d) = lookup k' d.
Proof.
  intros H. unfold od_move_to_end. destruct (lookup k d) eqn:E; trivial.
  rewrite lookup_app. destruct (String.eqb_spec k k') as [<-|Hne].
  - rewrite lookup_od_delete_eq by trivial. simpl. now rewrite String.eqb_refl.
  - rewrite lookup_od_delete_neq by trivial.
    destruct (lookup k' d) eqn:E'; trivial. simpl.
    destruct (String.eqb_spec k' k); [congruence | trivial].
Qed.

Lemma NoDup_tl (l : list string) : NoDup l -> NoDup (tl l).
Proof. destruct l; simpl; trivial. intros H. now inversion H. Qed.

Lemma keys_tl d : keys (tl d) = tl (keys d).
Proof. now destruct d. Qed.

End AssocFacts.

(* ------------------------------------------------------------------ *)
(** ** The store *)

Lemma od_delete_od_assign (V : Type) (k : string) (v : V) d :
  od_delete k (od_assign k v d) = od_delete k d.
Proof.
  induction d as [|[k0 v0] r IH]; simpl.
  - now rewrite String.eqb_refl.
  - destruct (String.eqb_spec k k0) as [->|Hk]; simpl.
    + now rewrite String.eqb_refl.
    + destruct (String.eqb_spec k k0); [congruence | now rewrite IH].
Qed.

Lemma od_move_to_end_od_assign (V : Type) (k : string) (v : V) d :
  od_move_to_end k (od_assign k v d) = (od_delete k d ++ [(k, v)])%list.
Proof.
  unfold od_move_to_end.
  now rewrite lookup_od_assign_eq, od_delete_od_assign.
Qed.

Lemma get_unfold c args kwargs now key :
  _generate_key args kwargs = Ret key ->
  get c args kwargs now =
  match lookup key (cache c) with
  | None => Ret (PNone, c)
  | Some item =>
      if expires_at item <? now
      then Ret (PNone, with_cache c (od_delete key (cache c)))
      else Ret (value item, with_cache c (od_move_to_end key (cache c)))
  end.
Proof. intros H. unfold get. now rewrite H. Qed.

Lemma get_inv c args kwargs now v c' :
  get c args kwargs now = Ret (v, c') ->
  exists key, _generate_key args kwargs = Ret key.
Proof.
  unfold get. destruct (_generate_key args kwargs); [eauto | discriminate].
Qed.

Lemma timedelta_in_range now ttl :
  valid_datetime now -> valid_datetime (now + ttl * 1000000) ->
  timedelta_seconds (PInt ttl) = Ret (ttl * 1000000).
Proof.
  unfold valid_datetime, datetime_max, timedelta_seconds. intros H1 H2.
  replace ((-999999999 <=? ttl / 86400) && (ttl / 86400 <=? 999999999)) with true;
    trivial.
  symmetry. apply andb_true_iff.
  split; apply Z.leb_le; Z.div_mod_to_equations; lia.
Qed.

Lemma datetime_add_in_range now delta :
  valid_datetime (now + delta) -> datetime_add now delta = Ret (now + delta).
Proof.
  unfold valid_datetime, datetime_add. intros [H1 H2].
  apply Z.leb_le in H1, H2. now rewrite H1, H2.
Qed.

Lemma set_returns c v args ttl kwargs now now' key :
  _generate_key args kwargs = Ret key ->
  valid_datetime now -> valid_datetime (now + ttl * 1000000) ->
  set c v args (PInt ttl) kwargs now now' =
  Ret (with_cache c
         (stored (max_size c) key (Entry v (now + ttl * 1000000) now') (cache c))).
Proof.
  intros Hk H1 H2. unfold set. rewrite Hk. cbn [bind is_none].
  rewrite (timedelta_in_range now ttl H1 H2). cbn [bind].
  rewrite (datetime_add_in_range _ _ H2). cbn [bind].
  now rewrite od_move_to_end_od_assign.
Qed.

Lemma set_inv c v args ttl kwargs now now' c' :
  set c v args ttl kwargs now now' = Ret c' ->
  exists key e,
    _generate_key args kwargs = Ret key /\ value e = v /\ created_at e = now' /\
    c' = with_cache c (stored (max_size c) key e (cache c)).
Proof.
  unfold set. destruct (_generate_key args kwargs) as [key|]; [simpl | discriminate].
  destruct (timedelta_seconds _) as [delta|]; [simpl | discriminate].
  destruct (datetime_add now delta) as [ex|]; [simpl | discriminate].
  intros H. injection H as <-. exists key, (Entry v ex now').
  rewrite od_move_to_end_od_assign. auto.
Qed.

Lemma length_stored m key e d :
  Z.of_nat (List.length d) <= m -> Z.of_nat (List.length (stored m key e d)) <= m.
Proof.
  intros H. unfold stored.
  set (d' := (od_delete key d ++ [(key, e)])%list).
  assert (Hd' : (List.length d' <= S (List.length d))%nat).
  { unfold d'. rewrite length_app, length_od_delete. simpl.
    destruct (contains key d); lia. }
  destruct (Z.gtb_spec (Z.of_nat (List.length d')) m) as [Hgt|Hle]; [|lia].
  destruct d'; simpl in *; lia.
Qed.

Lemma NoDup_stored m key e d : NoDup (keys d) -> NoDup (keys (stored m key e d)).
Proof.
  intros H. unfold stored.
  assert (Hd : NoDup (keys (od_delete key d ++ [(key, e)])%list)).
  { rewrite <- od_move_to_end_od_assign.
    apply NoDup_od_move_to_end, NoDup_od_assign, H. }
  destruct (_ >? m); trivial. rewrite keys_tl. now apply NoDup_tl.
Qed.

Lemma cleanup_keep (ks : list string) (k : string) (e : entry) :
  ~ In k ks ->
  forall n d,
    fold_left (fun (st : Z * list (string * entry)) key =>
                 (fst st + 1, od_delete key (snd st))) ks (n, (k, e) :: d) =
    let r := fold_left (fun (st : Z * list (string * entry)) key =>
                          (fst st + 1, od_delete key (snd st))) ks (n, d) in
    (fst r, (k, e) :: snd r).
Proof.
  induction ks as [|k0 ks IH]; intros Hn n d; simpl; trivial.
  destruct (String.eqb_spec k0 k) as [->|Hne]; [exfalso; apply Hn; now left |].
  apply IH. intros Hin. apply Hn. now right.
Qed.

Lemma cleanup_fold now d :
  NoDup (keys d) ->
  forall n,
    fold_left (fun (st : Z * list (string * entry)) key =>
                 (fst st + 1, od_delete key (snd st)))
              (map fst (filter (expired now) d)) (n, d) =
    (n + Z.of_nat (List.length (filter (expired now) d)),
     filter (fun kv => negb (expired now kv)) d).
Proof.
  induction d as [|[k e] r IH]; intros H n; simpl.
  - f_equal. lia.
  - inversion H as [|? ? Hn Hr]; subst.
    destruct (expired now (k, e)) eqn:E; simpl.
    + rewrite String.eqb_refl, IH by trivial. f_equal. lia.
    + rewrite cleanup_keep.
      * rewrite IH by trivial. reflexivity.
      * intros Hin. apply Hn. apply in_map_iff in Hin.
        destruct Hin as [[k' e'] [<- Hin]]. apply filter_In in Hin.
        apply in_map_iff. exists (k', e'). tauto.
Qed.

Lemma cleanup_spec c now :
  wf c ->
  cleanup c now =
  (Z.of_nat (List.length (filter (expired now) (cache c))),
   with_cache c (filter (fun kv => negb (expired now kv)) (cache c))).
Proof.
  intros H. unfold cleanup.
  change (fun kv : string * entry => expires_at (snd kv) <? now) with (expired now).
  now rewrite (cleanup_fold now (cache c) H 0).
Qed.

Lemma NoDup_keys_filter (p : string * entry -> bool) d :
  NoDup (keys d) -> NoDup (keys (filter p d)).
Proof.
  induction d as [|[k e] r IH]; simpl; trivial.
  intros H. inversion H as [|? ? Hn Hr]; subst.
  destruct (p (k, e)); simpl; auto.
  constructor; auto. intros Hin. apply Hn.
  apply in_map_iff in Hin. destruct Hin as [x [<- Hx]].
  apply filter_In in Hx. apply in_map. tauto.
Qed.

Lemma reachable_inv m d c :
  0 <= m -> reachable m d c -> wf c /\ max_size c = m /\ size c <= m.
Proof.
  intros Hm H. induction H as
    [ | c args kwargs now v c' _ IH Hg | c v args ttl kwargs now now' c' _ IH Hs
      | c _ IH | c now _ IH ].
  - unfold wf, size. simpl. repeat split; [constructor | lia].
  - destruct IH as (Hwf & Hmax & Hsz).
    destruct (get_inv _ _ _ _ _ _ Hg) as [key Hk].
    rewrite (get_unfold c args kwargs now key Hk) in Hg.
    destruct (lookup key (cache c)) as [item|] eqn:E.
    + destruct (expires_at item <? now); injection Hg as _ <-;
        unfold wf, size in *; simpl; repeat split; trivial.
      * now apply NoDup_od_delete.
      * rewrite length_od_delete. destruct (contains key (cache c)); lia.
      * now apply NoDup_od_move_to_end.
      * now rewrite length_od_move_to_end.
    + injection Hg as _ <-. auto.
  - destruct IH as (Hwf & Hmax & Hsz).
    destruct (set_inv _ _ _ _ _ _ _ _ Hs) as (key & e & _ & _ & _ & ->).
    unfold wf, size in *. simpl. repeat split; trivial.
    + now apply NoDup_stored.
    + rewrite Hmax. apply length_stored. lia.
  - destruct IH as (Hwf & Hmax & Hsz). unfold wf, size in *. simpl.
    repeat split; [constructor | trivial | lia].
  - destruct IH as (Hwf & Hmax & Hsz). rewrite (cleanup_spec c now Hwf).
    unfold wf, size in *. simpl. repeat split; trivial.
    + now apply NoDup_keys_filter.
    + pose proof (filter_length_le (fun kv => negb (expired now kv)) (cache c)). lia.
Qed.

Lemma od_delete_absent (V : Type) (k : string) (d : list (string * V)) :
  lookup k d = None -> od_delete k d = d.
Proof.
  induction d as [|[k0 v0] r IH]; simpl; trivial.
  destruct (String.eqb k k0); [discriminate | intros H; now rewrite IH].
Qed.

Lemma lookup_stored_eq m key e d :
  0 < m -> NoDup (keys d) -> lookup key (stored m key e d) = Some e.
Proof.
  intros Hm Hd. unfold stored.
  pose proof (lookup_od_delete_eq _ d key Hd) as Hdel.
  destruct (od_delete key d) as [|[k0 v0] r]; simpl.
  - destruct (1 >? m) eqn:E; [apply Z.gtb_lt in E; lia |].
    simpl. now rewrite String.eqb_refl.
  - simpl in Hdel. destruct (String.eqb key k0) eqn:Ek; [discriminate |].
    assert (Hr : lookup key (r ++ [(key, e)])%list = Some e).
    { rewrite lookup_app, Hdel. simpl. now rewrite String.eqb_refl. }
    destruct (_ >? m); simpl; [trivial | now rewrite Ek].
Qed.



(** C3: a cache constructed with a positive [max_size] never holds more
    than [max_size] entries.  The bound holds in every reachable state and
    after every [set] call; a [set] of a new key into a full cache drops the
    oldest entry without looking at its expiry time; [get], [cleanup] and
    [clear] never increase the number of entries. *)
Theorem size_within_max_size :
  forall m d c,
    0 < m -> reachable m d c ->
    size c <= max_size c /\
    (forall v args ttl kwargs now now' c',
        set c v args ttl kwargs now now' = Ret c' ->
        size c' <= max_size c' /\
        (forall key,
            _generate_key args kwargs = Ret key ->
            lookup key (cache c) = None -> size c = max_size c ->
            keys (cache c') = (tl (keys (cache c)) ++ [key])%list)) /\
    (forall args kwargs now v c',
        get c args kwargs now = Ret (v, c') ->
        size c' <= size c /\ size c' <= max_size c') /\
    (forall now,
        size (snd (cleanup c now)) <= size c /\
        size (snd (cleanup c now)) <= max_size (snd (cleanup c now))) /\
    size (clear c) <= size c /\ size (clear c) <= max_size (clear c).
Proof.
  intros m d c Hm Hr.
  assert (Hm' : 0 <= m) by lia.
  destruct (reachable_inv m d c Hm' Hr) as (Hwf & Hmax & Hsz).
  split; [lia |]. split; [| split; [| split]].
  - intros v args ttl kwargs now now' c' Hs.
    destruct (reachable_inv m d c' Hm' (reach_set m d c v args ttl kwargs now now' c' Hr Hs))
      as (_ & Hmax' & Hsz').
    split; [lia |]. intros key Hk Hnone Hfull.
    destruct (set_inv _ _ _ _ _ _ _ _ Hs) as (key' & e & Hk' & _ & _ & ->).
    assert (key' = key) by congruence. subst key'. simpl.
    unfold stored. rewrite (od_delete_absent _ key (cache c) Hnone).
    unfold size in Hfull. rewrite length_app. simpl.
    destruct (Z.gtb_spec (Z.of_nat (List.length (cache c) + 1)) (max_size c)); [|lia].
    destruct (cache c) as [|x r]; simpl in *; [lia |].
    now rewrite keys_app.
  - intros args kwargs now v c' Hg.
    destruct (reachable_inv m d c' Hm' (reach_get m d c args kwargs now v c' Hr Hg))
      as (_ & Hmax' & Hsz').
    split; [| lia].
    destruct (get_inv _ _ _ _ _ _ Hg) as [key Hk].
    rewrite (get_unfold c args kwargs now key Hk) in Hg.
    destruct (lookup key (cache c)) as [item|].
    + destruct (expires_at item <? now); injection Hg as _ <-; unfold size; simpl.
      * rewrite length_od_delete. destruct (contains key (cache c)); lia.
      * rewrite length_od_move_to_end. lia.
    + injection Hg as _ <-. lia.
  - intros now.
    destruct (reachable_inv m d _ Hm' (reach_cleanup m d c now Hr)) as (_ & Hmax' & Hsz').
    split; [| lia]. rewrite (cleanup_spec c now Hwf). unfold size. simpl.
    pose proof (filter_length_le (fun kv => negb (expired now kv)) (cache c)). lia.
  - unfold size, clear. simpl. lia.
Qed.

(** C5: [get] on an entry whose expiry time has passed deletes the entry
    and returns [None]; [get] on a stored entry that has not expired moves
    it to the most recently used end and returns its value.  So [set] of
    [v] with a time to live [ttl], on a cache of positive [max_size], is
    followed by a [get] that returns [v] while [ttl] has not elapsed, and
    by a miss that removes the entry once it has. *)
Theorem get_expires_and_refreshes :
  forall c args kwargs key,
    wf c -> _generate_key args kwargs = Ret key ->
    (forall item now,
        lookup key (cache c) = Some item -> expires_at item < now ->
        get c args kwargs now = Ret (PNone, with_cache c (od_delete key (cache c))) /\
        lookup key (od_delete key (cache c)) = None) /\
    (forall item now,
        lookup key (cache c) = Some item -> now <= expires_at item ->
        get c args kwargs now =
          Ret (value item,
               with_cache c (od_delete key (cache c) ++ [(key, item)])%list)) /\
    (forall v ttl t0 t0',
        0 < max_size c -> valid_datetime t0 -> valid_datetime (t0 + ttl * 1000000) ->
        exists c1,
          set c v args (PInt ttl) kwargs t0 t0' = Ret c1 /\
          (forall t, t <= t0 + ttl * 1000000 ->
             exists c2, get c1 args kwargs t = Ret (v, c2)) /\
          (forall t, t0 + ttl * 1000000 < t ->
             exists c2, get c1 args kwargs t = Ret (PNone, c2) /\
                        lookup key (cache c2) = None)).
Proof.
  intros c args kwargs key Hwf Hk. split; [| split].
  - intros item now Hl Hexp. rewrite (get_unfold c args kwargs now key Hk), Hl.
    apply Z.ltb_lt in Hexp. rewrite Hexp. split; trivial.
    now apply lookup_od_delete_eq.
  - intros item now Hl Hlive. rewrite (get_unfold c args kwargs now key Hk), Hl.
    destruct (Z.ltb_spec (expires_at item) now); [lia |].
    unfold od_move_to_end. now rewrite Hl.
  - intros v ttl t0 t0' Hm H0 H1.
    rewrite (set_returns c v args ttl kwargs t0 t0' key Hk H0 H1).
    eexists. split; [reflexivity |].
    set (e := Entry v (t0 + ttl * 1000000) t0').
    assert (Hl : lookup key (stored (max_size c) key e (cache c)) = Some e)
      by now apply lookup_stored_eq.
    split; intros t Ht.
    + rewrite (get_unfold _ args kwargs t key Hk). simpl. rewrite Hl. simpl.
      destruct (Z.ltb_spec (t0 + ttl * 1000000) t); [lia | eauto].
    + rewrite (get_unfold _ args kwargs t key Hk). simpl. rewrite Hl. simpl.
      destruct (Z.ltb_spec (t0 + ttl * 1000000) t); [| lia].
      eexists. split; [reflexivity |]. simpl.
      apply lookup_od_delete_eq. now apply NoDup_stored.
Qed.

Lemma stored_fresh m key e d :
  lookup key d = None -> Z.of_nat (List.length d) + 1 <= m ->
  stored m key e d = (d ++ [(key, e)])%list.
Proof.
  intros Hk Hm. unfold stored. rewrite (od_delete_absent _ key d Hk).
  destruct (Z.gtb_spec (Z.of_nat (List.length (d ++ [(key, e)])%list)) m) as [H|H];
    trivial.
  rewrite length_app in H. simpl in H. lia.
Qed.

(** A series of insertions under distinct new keys, into a cache with room
    for them, appends one entry for each. *)
Lemma set_all_appends l :
  forall c ks,
    mapM ins_key l = Ret ks -> NoDup (keys (cache c) ++ ks)%list ->
    size c + Z.of_nat (List.length l) <= max_size c ->
    Forall (fun i => valid_datetime (ins_now i) /\ valid_datetime (ins_expiry i)) l ->
    set_all c l =
    Ret (with_cache c
           (cache c ++
            combine ks (map (fun i => Entry (ins_value i) (ins_expiry i) (ins_created i)) l))%list).
Proof.
  induction l as [|i l IH]; intros c ks Hks Hnd Hsz Hv; simpl in *.
  - injection Hks as <-. simpl. rewrite app_nil_r. now destruct c.
  - destruct (ins_key i) as [k|] eqn:Ek; simpl in Hks; [| discriminate].
    destruct (mapM ins_key l) as [ks'|] eqn:Eks; simpl in Hks; [| discriminate].
    injection Hks as <-. inversion Hv as [|? ? [V1 V2] Hv']; subst.
    assert (Habs : lookup k (cache c) = None).
    { apply lookup_None_iff. intros Hin.
      apply NoDup_remove_2 in Hnd. apply Hnd. apply in_or_app. now left. }
    unfold ins_key in Ek.
    rewrite (set_returns c _ _ _ _ _ _ k Ek V1 V2). simpl.
    unfold size in Hsz.
    rewrite stored_fresh by (trivial; lia).
    rewrite (IH _ ks' eq_refl); simpl.
    + now rewrite <- app_assoc.
    + rewrite keys_app. simpl. rewrite <- app_assoc. exact Hnd.
    + unfold size. simpl. rewrite length_app. simpl. lia.
    + exact Hv'.
Qed.

Lemma filter_combine_entries now l :
  forall ks,
    List.length ks = List.length l ->
    List.length
      (filter (expired now)
         (combine ks (map (fun i => Entry (ins_value i) (ins_expiry i) (ins_created i)) l)))
    = List.length (filter (past_due now) l) /\
    List.length
      (filter (fun kv => negb (expired now kv))
         (combine ks (map (fun i => Entry (ins_value i) (ins_expiry i) (ins_created i)) l)))
    = List.length (filter (fun i => negb (past_due now i)) l).
Proof.
  induction l as [|i l IH]; intros [|k ks] Hlen; try discriminate; [simpl; auto |].
  injection Hlen as Hlen. destruct (IH ks Hlen) as [H1 H2].
  assert (E : expired now (k, Entry (ins_value i) (ins_expiry i) (ins_created i)) =
              past_due now i) by reflexivity.
  cbn [map combine filter]. rewrite E.
  destruct (past_due now i); cbn [negb List.length]; rewrite H1, H2; auto.
Qed.

Lemma keys_combine (V : Type) (ks : list string) (vs : list V) :
  List.length ks = List.length vs -> keys (combine ks vs) = ks.
Proof.
  revert vs. induction ks as [|k ks IH]; intros [|v vs] H; try discriminate; trivial.
  simpl in *. injection H as H. now rewrite IH.
Qed.

Lemma length_mapM (A B : Type) (f : A -> outcome B) l r :
  mapM f l = Ret r -> List.length r = List.length l.
Proof.
  revert r. induction l as [|x l IH]; simpl; intros r H.
  - now injection H as <-.
  - destruct (f x); simpl in H; [| discriminate].
    destruct (mapM f l) as [ys|]; simpl in H; [| discriminate].
    injection H as <-. simpl. now rewrite (IH ys eq_refl).
Qed.

(** C8: [cleanup] deletes exactly the entries whose expiry time has passed,
    keeps the others in place and in order, and returns the number of
    entries it deleted.  After a series of insertions under distinct keys
    into a new cache with room for them, it returns the number of
    insertions whose time to live is over and leaves as many entries as
    there are others: 3 and 2 for three past-due insertions and two that
    are not. *)
Theorem cleanup_removes_the_expired :
  (forall c now,
      wf c ->
      cache (snd (cleanup c now)) =
        filter (fun kv => negb (expired now kv)) (cache c) /\
      fst (cleanup c now) = Z.of_nat (List.length (filter (expired now) (cache c))) /\
      fst (cleanup c now) = size c - size (snd (cleanup c now))) /\
  (forall m d l ks now,
      mapM ins_key l = Ret ks -> NoDup ks -> Z.of_nat (List.length l) <= m ->
      Forall (fun i => valid_datetime (ins_now i) /\ valid_datetime (ins_expiry i)) l ->
      exists c,
        set_all (__init__ m d) l = Ret c /\
        fst (cleanup c now) = Z.of_nat (List.length (filter (past_due now) l)) /\
        size (snd (cleanup c now)) =
          Z.of_nat (List.length (filter (fun i => negb (past_due now i)) l)) /\
        (List.length (filter (past_due now) l) = 3%nat ->
         List.length (filter (fun i => negb (past_due now i)) l) = 2%nat ->
         fst (cleanup c now) = 3 /\ size (snd (cleanup c now)) = 2)).
Proof.
  split.
  - intros c now Hwf. rewrite (cleanup_spec c now Hwf). simpl.
    split; [trivial | split; [trivial |]].
    unfold size. simpl.
    pose proof (filter_length (expired now) (cache c)) as H. lia.
  - intros m d l ks now Hks Hnd Hm Hv.
    rewrite (set_all_appends l (__init__ m d) ks Hks);
      [| exact Hnd | unfold size; simpl; lia | exact Hv].
    simpl. eexists. split; [reflexivity |].
    assert (Hlen : List.length ks = List.length l) by (eapply length_mapM; eauto).
    assert (Hwf : wf (with_cache (__init__ m d)
                        (combine ks (map (fun i =>
                           Entry (ins_value i) (ins_expiry i) (ins_created i)) l)))).
    { unfold wf. simpl. rewrite keys_combine; trivial. now rewrite length_map. }
    rewrite (cleanup_spec _ now Hwf). simpl. unfold size. simpl.
    destruct (filter_combine_entries now l ks Hlen) as [-> ->].
    split; [trivial | split; [trivial |]].
    intros -> ->. split; reflexivity.
Qed.

Lemma set_default_returns c v args kwargs now now' key :
  _generate_key args kwargs = Ret key ->
  valid_datetime now -> valid_datetime (now + default_ttl c * 1000000) ->
  set c v args PNone kwargs now now' =
  Ret (with_cache c
         (stored (max_size c) key
            (Entry v (now + default_ttl c * 1000000) now') (cache c))).
Proof. intros. now apply (set_returns c v args (default_ttl c)). Qed.

Ltac key_eqs :=
  repeat match goal with
    | |- context [String.eqb ?a ?a] => rewrite (String.eqb_refl a)
    | H : ?a <> ?b |- context [String.eqb ?a ?b] =>
        rewrite (proj2 (String.eqb_neq a b) H)
    | H : ?a <> ?b |- context [String.eqb ?b ?a] =>
        rewrite (proj2 (String.eqb_neq b a) (not_eq_sym H))
    end.

Ltac crunch :=
  repeat (progress (unfold stored, od_move_to_end; simpl; key_eqs));
  repeat match goal with
    | L : forall t x, In t _ -> In x _ -> (_ <? _) = false
      |- context [?a + ?d * 1000000 <? ?x] =>
        rewrite (L a x) by (simpl; tauto);
        repeat (progress (unfold stored, od_move_to_end; simpl; key_eqs))
    end.

(** C2: eviction is in least recently used order, and both [set] and a
    successful [get] refresh an entry.  On a new cache with [max_size = 2],
    while no time to live elapses: after [set] of three distinct keys K1,
    K2, K3 the cache holds K2 and K3, [get] of K1 misses and [get] of K2
    and of K3 hit; after [set] K1, [set] K2, [get] K1, [set] K3 the cache
    holds K1 and K3 and K2 is gone; and so it is after [set] K1, [set] K2,
    [set] K1 again, [set] K3. *)
Theorem lru_eviction_order :
  forall d a1 kw1 a2 kw2 a3 kw3 K1 K2 K3 v1 v2 v3 v4 t1 u1 t2 u2 t3 u3 t4 u4
         g g1 g2 g3,
    _generate_key a1 kw1 = Ret K1 ->
    _generate_key a2 kw2 = Ret K2 ->
    _generate_key a3 kw3 = Ret K3 ->
    K1 <> K2 -> K1 <> K3 -> K2 <> K3 ->
    Forall (fun t => valid_datetime t /\ valid_datetime (t + d * 1000000))
           [t1; t2; t3; t4] ->
    none_elapsed d [t1; t2; t3; t4] [g; g1; g2; g3] ->
    (exists c1 c2 c3,
        set (__init__ 2 d) v1 a1 PNone kw1 t1 u1 = Ret c1 /\
        set c1 v2 a2 PNone kw2 t2 u2 = Ret c2 /\
        set c2 v3 a3 PNone kw3 t3 u3 = Ret c3 /\
        keys (cache c3) = [K2; K3] /\
        get c3 a1 kw1 g1 = Ret (PNone, c3) /\
        exists c4, get c3 a2 kw2 g2 = Ret (v2, c4) /\
        exists c5, get c4 a3 kw3 g3 = Ret (v3, c5)) /\
    (exists c1 c2 c2' c3,
        set (__init__ 2 d) v1 a1 PNone kw1 t1 u1 = Ret c1 /\
        set c1 v2 a2 PNone kw2 t2 u2 = Ret c2 /\
        get c2 a1 kw1 g = Ret (v1, c2') /\
        set c2' v3 a3 PNone kw3 t3 u3 = Ret c3 /\
        keys (cache c3) = [K1; K3] /\
        get c3 a2 kw2 g2 = Ret (PNone, c3) /\
        exists c4, get c3 a1 kw1 g1 = Ret (v1, c4) /\
        exists c5, get c4 a3 kw3 g3 = Ret (v3, c5)) /\
    (exists c1 c2 c2' c3,
        set (__init__ 2 d) v1 a1 PNone kw1 t1 u1 = Ret c1 /\
        set c1 v2 a2 PNone kw2 t2 u2 = Ret c2 /\
        set c2 v4 a1 PNone kw1 t4 u4 = Ret c2' /\
        set c2' v3 a3 PNone kw3 t3 u3 = Ret c3 /\
        keys (cache c3) = [K1; K3] /\
        get c3 a2 kw2 g2 = Ret (PNone, c3) /\
        exists c4, get c3 a1 kw1 g1 = Ret (v4, c4) /\
        exists c5, get c4 a3 kw3 g3 = Ret (v3, c5)).
Proof.
  intros d a1 kw1 a2 kw2 a3 kw3 K1 K2 K3 v1 v2 v3 v4 t1 u1 t2 u2 t3 u3 t4 u4
    g g1 g2 g3 H1 H2 H3 N12 N13 N23 Hv Hn.
  inversion Hv as [|? ? [V1 V1'] Hv1]; subst.
  inversion Hv1 as [|? ? [V2 V2'] Hv2]; subst.
  inversion Hv2 as [|? ? [V3 V3'] Hv3]; subst.
  inversion Hv3 as [|? ? [V4 V4'] _]; subst. clear Hv Hv1 Hv2 Hv3.
  assert (L : forall t x, In t [t1; t2; t3; t4] -> In x [g; g1; g2; g3] ->
                          (t + d * 1000000 <? x) = false).
  { intros t x Ht Hx. apply Z.ltb_ge. now apply Hn. }
  split; [| split].
  - do 3 eexists.
    split; [apply (set_default_returns _ _ _ _ _ _ K1 H1); assumption |].
    split; [apply (set_default_returns _ _ _ _ _ _ K2 H2); assumption |].
    split; [apply (set_default_returns _ _ _ _ _ _ K3 H3); assumption |].
    crunch.
    split; [reflexivity |].
    split; [rewrite (get_unfold _ a1 kw1 g1 K1 H1); crunch; reflexivity |].
    eexists. split; [rewrite (get_unfold _ a2 kw2 g2 K2 H2); crunch; reflexivity |].
    eexists. rewrite (get_unfold _ a3 kw3 g3 K3 H3); crunch. reflexivity.
  - do 4 eexists.
    split; [apply (set_default_returns _ _ _ _ _ _ K1 H1); assumption |].
    split; [apply (set_default_returns _ _ _ _ _ _ K2 H2); assumption |].
    split; [rewrite (get_unfold _ a1 kw1 g K1 H1); crunch; reflexivity |].
    split; [apply (set_default_returns _ _ _ _ _ _ K3 H3); assumption |].
    crunch. split; [reflexivity |].
    split; [rewrite (get_unfold _ a2 kw2 g2 K2 H2); crunch; reflexivity |].
    eexists. split; [rewrite (get_unfold _ a1 kw1 g1 K1 H1); crunch; reflexivity |].
    eexists. rewrite (get_unfold _ a3 kw3 g3 K3 H3); crunch. reflexivity.
  - do 4 eexists.
    split; [apply (set_default_returns _ _ _ _ _ _ K1 H1); assumption |].
    split; [apply (set_default_returns _ _ _ _ _ _ K2 H2); assumption |].
    split; [apply (set_default_returns _ _ _ _ _ _ K1 H1); assumption |].
    split; [apply (set_default_returns _ _ _ _ _ _ K3 H3); assumption |].
    crunch. split; [reflexivity |].
    split; [rewrite (get_unfold _ a2 kw2 g2 K2 H2); crunch; reflexivity |].
    eexists. split; [rewrite (get_unfold _ a1 kw1 g1 K1 H1); crunch; reflexivity |].
    eexists. rewrite (get_unfold _ a3 kw3 g3 K3 H3); crunch. reflexivity.
Qed.

Lemma reachable_set_at m d c v args ttl now :
  reachable m d c -> reachable m d (set_at c v args ttl now).
Proof.
  intros H. unfold set_at.
  destruct (set c v args (PInt ttl) [] now now) eqn:E; trivial.
  eapply reach_set; eauto.
Qed.

Lemma five_entries_reachable : reachable 10 3600 five_entries.
Proof. unfold five_entries. repeat apply reachable_set_at. constructor. Qed.

Lemma lru_eviction_order_witness :
  exists c1 c2 c3,
    set (__init__ 2 3600) (PInt 1) [PStr "K1"] PNone [] 0 0 = Ret c1 /\
    set c1 (PInt 2) [PStr "K2"] PNone [] 0 0 = Ret c2 /\
    set c2 (PInt 3) [PStr "K3"] PNone [] 0 0 = Ret c3 /\
    keys (cache c3) =
      ["ecebd75fc367b9aa41be06278689dc63"; "2c729497d91709de6bf1ccd875cf28e5"] /\
    get c3 [PStr "K1"] [] 1 = Ret (PNone, c3) /\
    exists c4, get c3 [PStr "K2"] [] 1 = Ret (PInt 2, c4) /\
    exists c5, get c4 [PStr "K3"] [] 1 = Ret (PInt 3, c5).
Proof.
  refine (proj1 (lru_eviction_order 3600
            [PStr "K1"] [] [PStr "K2"] [] [PStr "K3"] []
            "a1bba9704da78d22c74f1c2b0acf4213"
            "ecebd75fc367b9aa41be06278689dc63"
            "2c729497d91709de6bf1ccd875cf28e5"
            (PInt 1) (PInt 2) (PInt 3) (PInt 4) 0 0 0 0 0 0 0 0 1 1 1 1
            _ _ _ _ _ _ _ _)).
  1-3: vm_compute; reflexivity.
  1-3: discriminate.
  - repeat constructor; vm_compute; discriminate.
  - intros t g Ht Hg. simpl in Ht, Hg.
    destruct Ht as [<-|[<-|[<-|[<-|[]]]]]; destruct Hg as [<-|[<-|[<-|[<-|[]]]]];
      lia.
Defined.

Lemma size_within_max_size_witness :
  size five_entries <= max_size five_entries /\
  size (snd (cleanup five_entries 10000000)) <= size five_entries.
Proof.
  assert (H : 0 < 10) by lia.
  pose proof (size_within_max_size 10 3600 five_entries H five_entries_reachable)
    as (H1 & _ & _ & H4 & _).
  split; [exact H1 | exact (proj1 (H4 10000000))].
Defined.

Lemma get_expires_and_refreshes_witness :
  exists c1,
    set (__init__ 2 3600) (PStr "v") [PStr "k"] (PInt 1) [] 0 0 = Ret c1 /\
    (exists c2, get c1 [PStr "k"] [] 0 = Ret (PStr "v", c2)) /\
    (exists c2, get c1 [PStr "k"] [] 1000001 = Ret (PNone, c2) /\
                lookup "8ce4b16b22b58894aa86c421e8759df3" (cache c2) = None).
Proof.
  assert (Hwf : wf (__init__ 2 3600)) by constructor.
  assert (Hk : _generate_key [PStr "k"] [] = Ret "8ce4b16b22b58894aa86c421e8759df3")
    by (vm_compute; reflexivity).
  destruct (get_expires_and_refreshes (__init__ 2 3600) [PStr "k"] [] _ Hwf Hk)
    as (_ & _ & H).
  assert (Hm : 0 < max_size (__init__ 2 3600)) by (simpl; lia).
  assert (H0 : valid_datetime 0) by (vm_compute; split; discriminate).
  assert (H1 : valid_datetime (0 + 1 * 1000000)) by (vm_compute; split; discriminate).
  destruct (H (PStr "v") 1 0 0 Hm H0 H1) as (c1 & Hs & Hhit & Hmiss).
  exists c1. split; [exact Hs |]. split.
  - apply Hhit. lia.
  - apply Hmiss. lia.
Defined.

Lemma cleanup_removes_the_expired_witness :
  exists c,
    set_all (__init__ 10 3600)
      [Insertion (PInt 1) [PStr "a"] [] 1 0 0; Insertion (PInt 2) [PStr "b"] [] 100 0 0;
       Insertion (PInt 3) [PStr "c"] [] 1 0 0; Insertion (PInt 4) [PStr "d"] [] 100 0 0;
       Insertion (PInt 5) [PStr "e"] [] 1 0 0] = Ret c /\
    fst (cleanup c 10000000) = 3 /\ size (snd (cleanup c 10000000)) = 2.
Proof.
  destruct (proj2 cleanup_removes_the_expired 10 3600
              [Insertion (PInt 1) [PStr "a"] [] 1 0 0; Insertion (PInt 2) [PStr "b"] [] 100 0 0;
               Insertion (PInt 3) [PStr "c"] [] 1 0 0; Insertion (PInt 4) [PStr "d"] [] 100 0 0;
               Insertion (PInt 5) [PStr "e"] [] 1 0 0]
              ["0cc175b9c0f1b6a831c399e269772661"; "92eb5ffee6ae2fec3ad71c777531578f";
               "4a8a08f09d37b73795649038408b5f33"; "8277e0910d750195b448797616e091ad";
               "e1671797c52e15f763380b45e841ec32"]
              10000000) as (c & Hc & _ & _ & H).
  - vm_compute. reflexivity.
  - repeat constructor; simpl; intuition discriminate.
  - simpl. lia.
  - repeat constructor; vm_compute; discriminate.
  - exists c. split; [exact Hc |]. apply H; reflexivity.
Defined.

(* ------------------------------------------------------------------ *)
(** ** Key derivation *)

Lemma pyval_nested_ind (P : pyval -> Prop) :
  P PNone -> (forall b, P (PBool b)) -> (forall z, P (PInt z)) ->
  (forall s, P (PStr s)) ->
  (forall l, Forall P l -> P (PList l)) ->
  (forall d, Forall (fun kv => P (snd kv)) d -> P (PDict d)) ->
  (forall r, P (PObj r)) ->
  forall v, P v.
Proof.
  intros HN HB HI HS HL HD HO.
  fix IH 1.
  intros [ | b | z | s | l | d | r ];
    [exact HN | apply HB | apply HI | apply HS | | | apply HO].
  - apply HL.
    exact ((fix go (l : list pyval) : Forall P l :=
              match l with
              | [] => Forall_nil P
              | x :: r => Forall_cons x (IH x) (go r)
              end) l).
  - apply HD.
    exact ((fix go (d : list (string * pyval)) : Forall (fun kv => P (snd kv)) d :=
              match d with
              | [] => Forall_nil _
              | kv :: r => Forall_cons kv (IH (snd kv)) (go r)
              end) d).
Qed.

Section Order.

Lemma str_le_iff a b : str_le a b = true <-> a = b \/ String_as_OT.lt a b.
Proof.
  unfold str_le.
  destruct (String_as_OT.compare_spec a b) as [E|L|G]; split; auto;
    intros H; try discriminate.
  exfalso. destruct H as [->|L].
  - exact (StrictOrder_Irreflexive _ G).
  - exact (StrictOrder_Irreflexive _ (StrictOrder_Transitive _ _ _ L G)).
Qed.

Lemma str_le_total a b : str_le a b = true \/ str_le b a = true.
Proof.
  rewrite !str_le_iff.
  destruct (String_as_OT.compare_spec a b) as [E|L|G]; auto.
Qed.

Lemma str_le_antisym a b : str_le a b = true -> str_le b a = true -> a = b.
Proof.
  rewrite !str_le_iff. intros [E|L] [E'|L']; auto.
  exfalso. exact (StrictOrder_Irreflexive _ (StrictOrder_Transitive _ _ _ L L')).
Qed.

Lemma str_le_trans a b c : str_le a b = true -> str_le b c = true -> str_le a c = true.
Proof.
  rewrite !str_le_iff. intros [->|L] [->|L']; auto.
  right. exact (StrictOrder_Transitive _ _ _ L L').
Qed.

End Order.

Section Sorting.

Variable V : Type.
Implicit Types (x y : string * V) (l : list (string * V)).

Lemma insert_item_comm x y l :
  fst x <> fst y ->
  insert_item x (insert_item y l) = insert_item y (insert_item x l).
Proof.
  intros Hne. induction l as [|h t IH]; simpl.
  - destruct (str_le (fst x) (fst y)) eqn:Exy, (str_le (fst y) (fst x)) eqn:Eyx;
      trivial.
    + exfalso. apply Hne. now apply str_le_antisym.
    + destruct (str_le_total (fst x) (fst y)); congruence.
  - destruct (str_le (fst y) (fst h)) eqn:Eyh, (str_le (fst x) (fst h)) eqn:Exh; simpl.
    + destruct (str_le (fst x) (fst y)) eqn:Exy, (str_le (fst y) (fst x)) eqn:Eyx;
        rewrite ?Exh, ?Eyh; trivial.
      * exfalso. apply Hne. now apply str_le_antisym.
      * destruct (str_le_total (fst x) (fst y)); congruence.
    + rewrite ?Exh, ?Eyh.
      destruct (str_le (fst x) (fst y)) eqn:Exy; trivial.
      rewrite (str_le_trans _ _ _ Exy Eyh) in Exh. discriminate.
    + rewrite ?Exh, ?Eyh.
      destruct (str_le (fst y) (fst x)) eqn:Eyx; trivial.
      rewrite (str_le_trans _ _ _ Eyx Exh) in Eyh. discriminate.
    + rewrite ?Exh, ?Eyh. now rewrite IH.
Qed.

Lemma sorted_items_Permutation l l' :
  Permutation l l' -> NoDup (keys l) -> sorted_items l = sorted_items l'.
Proof.
  induction 1 as [| x l l' _ IH | x y l | l l' l'' H1 IH1 H2 IH2]; intros Hd; simpl.
  - reflexivity.
  - inversion Hd; subst. now rewrite IH.
  - apply insert_item_comm. inversion Hd as [|? ? Hn _]; subst.
    intros E. apply Hn. simpl. now left.
  - rewrite IH1 by trivial. apply IH2.
    eapply Permutation_NoDup; [| exact Hd]. unfold keys. now apply Permutation_map.
Qed.





End Sorting.

Section MapMFacts.

Variables A B : Type.

Lemma mapM_Forall2 (C : Type) (R : A -> C -> Prop) (f : A -> outcome B)
  (g : C -> outcome B) l l' :
  Forall2 R l l' -> (forall x y, In x l -> R x y -> f x = g y) ->
  mapM f l = mapM g l'.
Proof.
  induction 1 as [|x y l l' Hxy _ IH]; intros Hf; simpl; trivial.
  rewrite (Hf x y (or_introl eq_refl) Hxy), IH; trivial.
  intros x' y' Hin. apply Hf. now right.
Qed.

Lemma mapM_raises (f : A -> outcome B) l e :
  mapM f l = Raise e -> exists x, In x l /\ f x = Raise e.
Proof.
  induction l as [|x l IH]; simpl; [discriminate |].
  destruct (f x) as [y|e'] eqn:E; simpl.
  - destruct (mapM f l) as [ys|e'']; simpl; [discriminate |].
    intros H. injection H as ->. destruct (IH eq_refl) as (x' & Hin & Hx').
    exists x'. auto.
  - intros H. injection H as ->. exists x. auto.
Qed.

Lemma mapM_Permutation (f : A -> outcome B) l l' :
  Permutation l l' ->
  forall r, mapM f l = Ret r -> exists r', mapM f l' = Ret r' /\ Permutation r r'.
Proof.
  induction 1 as [| x l l' _ IH | x y l | l l' l'' _ IH1 _ IH2]; simpl; intros r Hr.
  - injection Hr as <-. eauto.
  - destruct (f x) as [b|]; simpl in *; [| discriminate].
    destruct (mapM f l) as [bs|]; simpl in *; [| discriminate].
    injection Hr as <-. destruct (IH bs eq_refl) as (bs' & -> & Hp).
    simpl. eauto.
  - destruct (f y) as [b|]; simpl in *; [| discriminate].
    destruct (f x) as [b'|]; simpl in *; [| discriminate].
    destruct (mapM f l) as [bs|]; simpl in *; [| discriminate].
    injection Hr as <-. eexists. split; [reflexivity | apply perm_swap].
  - destruct (IH1 r Hr) as (r' & Hr' & Hp).
    destruct (IH2 r' Hr') as (r'' & Hr'' & Hp').
    exists r''. split; trivial. now transitivity r'.
Qed.

End MapMFacts.

Lemma dumps_dict d :
  dumps (PDict d) =
  (members <- mapM member d ;;
   Ret ("{" ++ join ", " (map dumps_member (sorted_items members)) ++ "}")).
Proof. reflexivity. Qed.

Lemma dumps_list l :
  dumps (PList l) = (parts <- mapM dumps l ;; Ret ("[" ++ join ", " parts ++ "]")).
Proof. reflexivity. Qed.

Lemma dumps_raises v : forall e, dumps v = Raise e -> e = TypeError.
Proof.
  induction v as [ | b | z | s | l IH | d IH | r ] using pyval_nested_ind;
    intros e; try (simpl; discriminate || congruence).
  - destruct b; discriminate.
  - rewrite dumps_list. destruct (mapM dumps l) as [ps|e'] eqn:E; simpl; [discriminate |].
    intros H. injection H as ->. destruct (mapM_raises _ _ _ _ _ E) as (x & Hin & Hx).
    rewrite Forall_forall in IH. eauto.
  - rewrite dumps_dict. destruct (mapM member d) as [ps|e'] eqn:E; simpl; [discriminate |].
    intros H. injection H as ->. destruct (mapM_raises _ _ _ _ _ E) as (x & Hin & Hx).
    rewrite Forall_forall in IH. unfold member in Hx.
    destruct (dumps (snd x)) eqn:Ex; simpl in Hx; [discriminate |].
    injection Hx as ->. eauto.
Qed.

Lemma member_raises kv e : member kv = Raise e -> e = TypeError.
Proof.
  unfold member. destruct (dumps (snd kv)) eqn:E; simpl; [discriminate |].
  intros H. injection H as ->. eapply dumps_raises; eauto.
Qed.

Lemma keys_members d r : mapM member d = Ret r -> keys r = keys d.
Proof.
  revert r. induction d as [|kv d IH]; simpl; intros r H.
  - now injection H as <-.
  - unfold member at 1 in H. destruct (dumps (snd kv)); simpl in H; [| discriminate].
    destruct (mapM member d) as [ms|]; simpl in H; [| discriminate].
    injection H as <-. simpl. now rewrite (IH ms eq_refl).
Qed.

(** Serialising the members of a dictionary does not depend on the order
    in which they were inserted. *)
Lemma members_Permutation d d' :
  Permutation d d' -> NoDup (keys d) ->
  (members <- mapM member d ;;
   Ret ("{" ++ join ", " (map dumps_member (sorted_items members)) ++ "}")) =
  (members <- mapM member d' ;;
   Ret ("{" ++ join ", " (map dumps_member (sorted_items members)) ++ "}")).
Proof.
  intros Hp Hd.
  destruct (mapM member d) as [r|e] eqn:E.
  - destruct (mapM_Permutation _ _ member d d' Hp r E) as (r' & -> & Hr). simpl.
    rewrite (sorted_items_Permutation _ r r' Hr); trivial.
    now rewrite (keys_members d r E).
  - destruct (mapM member d') as [r'|e'] eqn:E'.
    + destruct (mapM_Permutation _ _ member d' d (Permutation_sym Hp) r' E')
        as (r & Hr & _). congruence.
    + simpl. destruct (mapM_raises _ _ _ _ _ E) as (x & _ & Hx).
      destruct (mapM_raises _ _ _ _ _ E') as (x' & _ & Hx').
      now rewrite (member_raises x e Hx), (member_raises x' e' Hx').
Qed.

Lemma keys_Forall2 d1 d2 :
  Forall2 (same_item same_value) d1 d2 -> keys d1 = keys d2.
Proof.
  induction 1 as [|a b d1 d2 [Hk _] _ IH]; simpl; trivial. now rewrite Hk, IH.
Qed.

Lemma dumps_same v1 :
  forall v2, same_value v1 v2 -> distinct_keys v1 -> dumps v1 = dumps v2.
Proof.
  induction v1 as [ | b | z | s | l IH | d IH | r ] using pyval_nested_ind;
    intros v2 Hs Hd; inversion Hs; subst; trivial.
  - rewrite !dumps_list. inversion Hd as [| | | | | ? Hl |]; subst.
    rewrite (mapM_Forall2 _ _ _ same_value dumps dumps l l2); trivial.
    intros x y Hin Hxy. rewrite Forall_forall in IH, Hl. apply IH; auto.
  - rewrite !dumps_dict. inversion Hd as [| | | | | | ? Hn Hv]; subst.
    rewrite (mapM_Forall2 _ _ _ (same_item same_value) member member d d0).
    + apply members_Permutation; trivial.
      now rewrite <- (keys_Forall2 d d0).
    + assumption.
    + intros [k x] [k' y] Hin [Hk Hxy]. simpl in Hk, Hxy. subst k'.
      rewrite Forall_forall in IH, Hv.
      pose proof (IH (k, x) Hin y Hxy (Hv (k, x) Hin)) as E. simpl in E.
      unfold member. simpl. now rewrite E.
Qed.

Lemma part_same v1 v2 :
  same_value v1 v2 -> distinct_keys v1 -> part v1 = part v2.
Proof.
  intros Hs Hd. pose proof (dumps_same v1 v2 Hs Hd) as H.
  inversion Hs; subst; trivial.
Qed.

Lemma sorted_items_perm (V : Type) (l : list (string * V)) :
  Permutation (sorted_items l) l.
Proof.
  induction l as [|a l IH]; simpl; [constructor |].
  transitivity (a :: sorted_items l); [| now constructor].
  clear IH. induction (sorted_items l) as [|h t IH]; simpl; [reflexivity |].
  destruct (str_le (fst a) (fst h)); [reflexivity |].
  rewrite IH. apply perm_swap.
Qed.

Lemma sorted_items_Forall2 (R : pyval -> pyval -> Prop) l l' :
  Forall2 (same_item R) l l' ->
  Forall2 (same_item R) (sorted_items l) (sorted_items l').
Proof.
  induction 1 as [|x y l l' Hxy _ IH]; simpl; [constructor |].
  induction IH as [|a b s s' Hab Hss IHs]; simpl.
  - repeat constructor; apply Hxy.
  - pose proof Hxy as [Hk Hv]. pose proof Hab as [Hk' Hv']. rewrite <- Hk, <- Hk'.
    destruct (str_le (fst x) (fst a)); repeat (constructor; trivial).
Qed.

(** C6: key derivation does not depend on the order in which the keys of a
    dictionary were inserted.  Argument lists whose positional values are
    pairwise structurally equal, and whose keyword arguments form
    structurally equal dictionaries, derive the same key (or fail alike);
    in particular the key is a function of the arguments alone, so that
    repeating a call repeats the key. *)
Theorem key_ignores_insertion_order :
  forall args1 args2 kwargs1 kwargs2,
    Forall distinct_keys args1 -> distinct_keys (PDict kwargs1) ->
    Forall2 same_value args1 args2 ->
    same_value (PDict kwargs1) (PDict kwargs2) ->
    _generate_key args1 kwargs1 = _generate_key args2 kwargs2.
Proof.
  intros args1 args2 kw1 kw2 Ha Hk Hargs Hkw.
  unfold _generate_key, key_string.
  rewrite (mapM_Forall2 _ _ _ same_value part part args1 args2 Hargs).
  2:{ intros x y Hin Hxy. rewrite Forall_forall in Ha. apply part_same; auto. }
  inversion Hkw as [| | | | | | ? kw ? Hpt Hperm]; subst.
  inversion Hk as [| | | | | | ? Hn Hv]; subst.
  assert (Hn' : NoDup (keys kw)) by now rewrite <- (keys_Forall2 kw1 kw).
  rewrite <- (sorted_items_Permutation _ kw kw2 Hperm Hn').
  rewrite (mapM_Forall2 _ _ _ (same_item same_value) kw_part kw_part
             (sorted_items kw1) (sorted_items kw)); trivial.
  - now apply sorted_items_Forall2.
  - intros [k x] [k' y] Hin [Hkk Hxy]. simpl in Hkk, Hxy. subst k'.
    unfold kw_part. simpl. rewrite (part_same x y Hxy); trivial.
    assert (Hin' : exists kv, In kv kw1 /\ snd kv = x).
    { exists (k, x). split; trivial.
      exact (Permutation_in _ (sorted_items_perm _ kw1) Hin). }
    destruct Hin' as (kv & Hkv & <-).
    rewrite Forall_forall in Hv. now apply Hv.
Qed.

Lemma key_ignores_insertion_order_witness :
  _generate_key
    [PDict [("a", PInt 1); ("b", PList [PStr "x"])]]
    [("opts", PDict [("p", PBool true); ("q", PNone)]); ("n", PInt 3)] =
  _generate_key
    [PDict [("b", PList [PStr "x"]); ("a", PInt 1)]]
    [("n", PInt 3); ("opts", PDict [("q", PNone); ("p", PBool true)])].
Proof.
  apply key_ignores_insertion_order.
  - repeat constructor; simpl; intuition discriminate.
  - repeat constructor; simpl; intuition discriminate.
  - constructor; [| constructor].
    apply same_dict with (d := [("a", PInt 1); ("b", PList [PStr "x"])]).
    + repeat constructor.
    + apply perm_swap.
  - apply same_dict
      with (d := [("opts", PDict [("q", PNone); ("p", PBool true)]); ("n", PInt 3)]).
    + constructor; [| repeat constructor].
      split; [reflexivity |]. simpl.
      apply same_dict with (d := [("p", PBool true); ("q", PNone)]).
      * repeat constructor.
      * apply perm_swap.
    + apply perm_swap.
Defined.



















(* ------------------------------------------------------------------ *)
(** ** The decorators *)

Lemma without_absent (V : Type) (k : string) (d : list (string * V)) :
  contains k d = false -> without k d = d.
Proof.
  unfold contains. induction d as [|[k' v] r IH]; simpl; trivial.
  destruct (String.eqb k k'); [discriminate |]. intros H. now rewrite IH.
Qed.

Lemma ordinary_inv kwargs :
  ordinary kwargs = true ->
  contains "self" kwargs = false /\ contains "value" kwargs = false /\
  contains "ttl" kwargs = false.
Proof.
  unfold ordinary. intros H. apply negb_true_iff in H.
  apply orb_false_iff in H. destruct H as [H ?].
  apply orb_false_iff in H. tauto.
Qed.

Lemma world_eta (St : Type) (w : World St) :
  MkWorld (llm_cache w) (api_cache w) (rest w) = w.
Proof. now destruct w. Qed.

Section DecoratorFacts.

Variable St : Type.
Implicit Types (w : World St) (func : afun St).

Lemma llm_set_stores result args kwargs clk w key :
  ordinary kwargs = true -> _generate_key args kwargs = Ret key ->
  can_store (llm_cache w) (default_ttl (llm_cache w)) clk ->
  exists e,
    value e = result /\
    llm_set result args kwargs clk w =
      (Ret tt,
       MkWorld (with_cache (llm_cache w)
                  (stored (max_size (llm_cache w)) key e (cache (llm_cache w))))
               (api_cache w) (rest w)) /\
    lookup key (stored (max_size (llm_cache w)) key e (cache (llm_cache w))) = Some e.
Proof.
  intros Ho Hk (Hwf & Hm & H0 & H1).
  destruct (ordinary_inv kwargs Ho) as (Hs & Hv & Ht).
  unfold llm_set. rewrite Hs, Hv. simpl.
  rewrite (without_absent _ "ttl" kwargs Ht).
  unfold contains in Ht. destruct (lookup "ttl" kwargs); [discriminate |].
  rewrite (set_default_returns _ _ _ _ _ _ key Hk H0 H1).
  eexists. split; [| split; [reflexivity |]]; [reflexivity |].
  now apply lookup_stored_eq.
Qed.

Lemma api_set_stores result name args ttl kwargs clk w key :
  ordinary kwargs = true -> _generate_key (PStr name :: args) kwargs = Ret key ->
  can_store (api_cache w) ttl clk ->
  exists e,
    value e = result /\
    api_set result name args ttl kwargs clk w =
      (Ret tt,
       MkWorld (llm_cache w)
               (with_cache (api_cache w)
                  (stored (max_size (api_cache w)) key e (cache (api_cache w))))
               (rest w)) /\
    lookup key (stored (max_size (api_cache w)) key e (cache (api_cache w))) = Some e.
Proof.
  intros Ho Hk (Hwf & Hm & H0 & H1).
  destruct (ordinary_inv kwargs Ho) as (Hs & Hv & Ht).
  unfold api_set. rewrite Hs, Hv, Ht. simpl.
  rewrite (set_returns _ _ _ _ _ _ _ key Hk H0 H1).
  eexists. split; [| split; [reflexivity |]]; [reflexivity |].
  now apply lookup_stored_eq.
Qed.

End DecoratorFacts.

(** C4, as the code has it: a call of a function wrapped by
    [cache_llm_result] that carries [force_analyze=True] is one execution of
    the function and nothing else, so that it neither reads nor writes a
    cache; an operation that counts its executions counts one and finds
    both caches as they were, whatever they hold.  [cache_api_response] has
    no such flag: a value held for the key is returned without executing
    the function, whatever the keyword arguments are. *)
Theorem forced_call_bypasses_llm_cache :
  forall (St : Type) (func : afun St) args kwargs clk (w : World St),
    lookup "force_analyze" kwargs = Some (PBool true) ->
    cache_llm_result func args kwargs clk w = func args kwargs w /\
    (forall r (w' : World nat),
        cache_llm_result (counting r) args kwargs clk w' =
        (r, MkWorld (llm_cache w') (api_cache w') (S (rest w')))) /\
    (forall ttl name v w0,
        api_get name args kwargs clk w = (Ret v, w0) -> is_none v = false ->
        cache_api_response ttl name func args kwargs clk w = (Ret v, w0)).
Proof.
  intros St func args kwargs clk w Hf.
  assert (Hforced : forced kwargs = true) by (unfold forced; now rewrite Hf).
  unfold cache_llm_result. rewrite Hforced. repeat split.
  intros ttl name v w0 Hg Hv. unfold cache_api_response, mbind.
  rewrite Hg, Hv. reflexivity.
Qed.

(** C1, as the code has it.  When the lookup misses and the wrapped
    operation completes normally: [cache_llm_result] writes the result to
    [llm_cache] if it is a dictionary without an ["error"] key, and leaves
    the world as the operation left it otherwise; [cache_api_response]
    leaves the world as the operation left it if the result is a dictionary
    with an ["error"] key, and writes every other result, scalars and text
    included, to [api_cache]. *)
Theorem write_back_policy :
  forall (St : Type) (func : afun St) ttl name args kwargs clk (w w0 w1 : World St)
         result,
    ordinary kwargs = true ->
    func args kwargs w0 = (Ret result, w1) ->
    (forall key,
        forced kwargs = false -> _generate_key args kwargs = Ret key ->
        llm_get args kwargs clk w = (Ret PNone, w0) ->
        can_store (llm_cache w1) (default_ttl (llm_cache w1)) clk ->
        if is_dict result && negb (has_error_key result)
        then exists w2 e,
               cache_llm_result func args kwargs clk w = (Ret result, w2) /\
               lookup key (cache (llm_cache w2)) = Some e /\ value e = result /\
               api_cache w2 = api_cache w1 /\ rest w2 = rest w1
        else cache_llm_result func args kwargs clk w = (Ret result, w1)) /\
    (forall key,
        _generate_key (PStr name :: args) kwargs = Ret key ->
        api_get name args kwargs clk w = (Ret PNone, w0) ->
        can_store (api_cache w1) ttl clk ->
        if is_dict result && has_error_key result
        then cache_api_response ttl name func args kwargs clk w = (Ret result, w1)
        else exists w2 e,
               cache_api_response ttl name func args kwargs clk w = (Ret result, w2) /\
               lookup key (cache (api_cache w2)) = Some e /\ value e = result /\
               llm_cache w2 = llm_cache w1 /\ rest w2 = rest w1).
Proof.
  intros St func ttl name args kwargs clk w w0 w1 result Ho Hfunc. split.
  - intros key Hnf Hk Hget Hcan.
    unfold cache_llm_result, mbind. rewrite Hnf, Hget. simpl. rewrite Hfunc.
    destruct (is_dict result && negb (has_error_key result)); [| reflexivity].
    destruct (llm_set_stores St result args kwargs clk w1 key Ho Hk Hcan)
      as (e & He & -> & Hl).
    unfold mret. eexists. exists e. split; [reflexivity |]. simpl.
    repeat split; assumption.
  - intros key Hk Hget Hcan.
    unfold cache_api_response, mbind. rewrite Hget. simpl. rewrite Hfunc.
    replace (negb (is_dict result) || negb (has_error_key result))
      with (negb (is_dict result && has_error_key result))
      by apply negb_andb.
    destruct (is_dict result && has_error_key result); [reflexivity |]. simpl.
    destruct (api_set_stores St result name args ttl kwargs clk w1 key Ho Hk Hcan)
      as (e & He & -> & Hl).
    unfold mret. eexists. exists e. split; [reflexivity |]. simpl.
    repeat split; assumption.
Qed.

Section MissPath.

Variable St : Type.
Implicit Types (w : World St) (func : afun St).

Lemma cache_llm_result_unfold func args kwargs clk :
  forced kwargs = false ->
  cache_llm_result func args kwargs clk =
  (cached_result <~ llm_get args kwargs clk ;;
   if negb (is_none cached_result) then mret cached_result
   else llm_call_and_cache func args kwargs clk).
Proof. intros H. unfold cache_llm_result. now rewrite H. Qed.

Lemma cache_api_response_unfold ttl name func args kwargs clk :
  cache_api_response ttl name func args kwargs clk =
  (cached_result <~ api_get name args kwargs clk ;;
   if negb (is_none cached_result) then mret cached_result
   else api_call_and_cache ttl name func args kwargs clk).
Proof. reflexivity. Qed.

Lemma api_get_unfold name args kwargs clk w key :
  contains "self" kwargs = false ->
  _generate_key (PStr name :: args) kwargs = Ret key ->
  api_get name args kwargs clk w =
  match lookup key (cache (api_cache w)) with
  | None => (Ret PNone, w)
  | Some item =>
      if expires_at item <? at_get clk
      then (Ret PNone,
            MkWorld (llm_cache w)
              (with_cache (api_cache w) (od_delete key (cache (api_cache w))))
              (rest w))
      else (Ret (value item),
            MkWorld (llm_cache w)
              (with_cache (api_cache w) (od_move_to_end key (cache (api_cache w))))
              (rest w))
  end.
Proof.
  intros Hs Hk. unfold api_get. rewrite Hs.
  rewrite (get_unfold _ _ _ _ key Hk).
  destruct (lookup key (cache (api_cache w))) as [item|].
  - now destruct (expires_at item <? at_get clk).
  - now rewrite world_eta.
Qed.

Lemma llm_get_unfold args kwargs clk w key :
  contains "self" kwargs = false ->
  _generate_key args kwargs = Ret key ->
  llm_get args kwargs clk w =
  match lookup key (cache (llm_cache w)) with
  | None => (Ret PNone, w)
  | Some item =>
      if expires_at item <? at_get clk
      then (Ret PNone,
            MkWorld (with_cache (llm_cache w) (od_delete key (cache (llm_cache w))))
              (api_cache w) (rest w))
      else (Ret (value item),
            MkWorld (with_cache (llm_cache w) (od_move_to_end key (cache (llm_cache w))))
              (api_cache w) (rest w))
  end.
Proof.
  intros Hs Hk. unfold llm_get. rewrite Hs.
  rewrite (get_unfold _ _ _ _ key Hk).
  destruct (lookup key (cache (llm_cache w))) as [item|].
  - now destruct (expires_at item <? at_get clk).
  - now rewrite world_eta.
Qed.

End MissPath.

(** C9: a [None] returned by a function wrapped by [cache_api_response] is
    written to [api_cache], and yet it is never served: the lookup of a key
    that holds [None] answers [None], as the lookup of an absent key does,
    and the wrapper goes on to call the function. *)
Theorem none_is_stored_but_never_served :
  forall (St : Type) (func : afun St) ttl name args kwargs clk (w : World St) key,
    ordinary kwargs = true ->
    _generate_key (PStr name :: args) kwargs = Ret key ->
    (forall w0 w1,
        api_get name args kwargs clk w = (Ret PNone, w0) ->
        func args kwargs w0 = (Ret PNone, w1) ->
        can_store (api_cache w1) ttl clk ->
        exists w2 e,
          cache_api_response ttl name func args kwargs clk w = (Ret PNone, w2) /\
          lookup key (cache (api_cache w2)) = Some e /\ value e = PNone) /\
    (forall e,
        lookup key (cache (api_cache w)) = Some e -> value e = PNone ->
        exists w0,
          api_get name args kwargs clk w = (Ret PNone, w0) /\
          cache_api_response ttl name func args kwargs clk w =
          api_call_and_cache ttl name func args kwargs clk w0) /\
    (lookup key (cache (api_cache w)) = None ->
     api_get name args kwargs clk w = (Ret PNone, w) /\
     cache_api_response ttl name func args kwargs clk w =
     api_call_and_cache ttl name func args kwargs clk w).
Proof.
  intros St func ttl name args kwargs clk w key Ho Hk.
  destruct (ordinary_inv kwargs Ho) as (Hs & _ & _).
  split; [| split].
  - intros w0 w1 Hget Hfunc Hcan.
    rewrite cache_api_response_unfold. unfold mbind, api_call_and_cache.
    rewrite Hget. simpl. unfold mbind. rewrite Hfunc. simpl.
    destruct (api_set_stores St PNone name args ttl kwargs clk w1 key Ho Hk Hcan)
      as (e & He & -> & Hl).
    unfold mret. eexists. exists e. split; [reflexivity |]. simpl. auto.
  - intros e Hl He.
    rewrite cache_api_response_unfold. unfold mbind.
    rewrite (api_get_unfold St name args kwargs clk w key Hs Hk), Hl, He.
    destruct (expires_at e <? at_get clk); eexists; split; reflexivity.
  - intros Hl.
    rewrite cache_api_response_unfold. unfold mbind.
    rewrite (api_get_unfold St name args kwargs clk w key Hs Hk), Hl.
    split; reflexivity.
Qed.

Lemma string_length_append (a b : string) :
  String.length (a ++ b) = (String.length a + String.length b)%nat.
Proof. induction a as [|c a IH]; simpl; [trivial | now rewrite IH]. Qed.





Lemma key_string_inv args kwargs s :
  key_string args kwargs = Ret s ->
  exists pos kws,
    mapM part args = Ret pos /\ mapM kw_part (sorted_items kwargs) = Ret kws /\
    s = join "|" (pos ++ kws)%list.
Proof.
  unfold key_string. destruct (mapM part args) as [pos|]; simpl; [| discriminate].
  destruct (mapM kw_part (sorted_items kwargs)) as [kws|]; simpl; [| discriminate].
  intros H. injection H as <-. eauto.
Qed.


Section NoSharing.

Variable St : Type.
Implicit Types (w : World St) (func : afun St).





Lemma llm_miss_runs func args kwargs clk w key :
  forced kwargs = false -> contains "self" kwargs = false ->
  _generate_key args kwargs = Ret key ->
  lookup key (cache (llm_cache w)) = None ->
  cache_llm_result func args kwargs clk w = llm_call_and_cache func args kwargs clk w.
Proof.
  intros Hf Hs Hkey Hk. rewrite (cache_llm_result_unfold St func args kwargs clk Hf).
  unfold mbind. now rewrite (llm_get_unfold St args kwargs clk w key Hs Hkey), Hk.
Qed.

End NoSharing.


(* ------------------------------------------------------------------ *)
(** ** Instances of the decorators *)

Lemma can_store_world0_llm (w : World nat) :
  llm_cache w = llm_cache world0 ->
  can_store (llm_cache w) (default_ttl (llm_cache w)) clock0.
Proof.
  intros ->. unfold can_store, wf, valid_datetime, datetime_max. simpl.
  repeat split; try lia. constructor.
Qed.

Lemma can_store_world0_api (w : World nat) :
  api_cache w = api_cache world0 -> can_store (api_cache w) 60 clock0.
Proof.
  intros ->. unfold can_store, wf, valid_datetime, datetime_max. simpl.
  repeat split; try lia. constructor.
Qed.

Lemma counting_leaves_llm_cache r : leaves_llm_cache (counting r).
Proof. intros args kwargs w. reflexivity. Qed.

Lemma write_back_policy_witness :
  exists w2 e,
    cache_llm_result (counting (Ret (PDict [("skills", PList [PStr "python"])])))
      [PStr "resume text"] [] clock0 world0 =
      (Ret (PDict [("skills", PList [PStr "python"])]), w2) /\
    lookup "e55565f443845382afaf88933d480c5b" (cache (llm_cache w2)) = Some e /\
    value e = PDict [("skills", PList [PStr "python"])].
Proof.
  pose proof (write_back_policy nat
                (counting (Ret (PDict [("skills", PList [PStr "python"])])))
                60 "parse_resume" [PStr "resume text"] [] clock0
                world0 world0 (MkWorld (llm_cache world0) (api_cache world0) 1%nat)
                (PDict [("skills", PList [PStr "python"])])
                eq_refl eq_refl) as [H _].
  assert (Hk : _generate_key [PStr "resume text"] [] =
               Ret "e55565f443845382afaf88933d480c5b") by (vm_compute; reflexivity).
  assert (Hg : llm_get [PStr "resume text"] [] clock0 world0 = (Ret PNone, world0))
    by (vm_compute; reflexivity).
  specialize (H _ eq_refl Hk Hg (can_store_world0_llm _ eq_refl)).
  simpl in H. destruct H as (w2 & e & H1 & H2 & H3 & _).
  exists w2, e. auto.
Defined.

(** C1 fails as stated for [cache_api_response]: a text result is written
    to [api_cache], and served from it on the next call. *)
Lemma api_wrapper_caches_text :
  is_dict (PStr "pong") = false /\
  fst (cache_api_response 60 "ping" (counting (Ret (PStr "pong"))) [] [] clock0 world0)
    = Ret (PStr "pong") /\
  map (fun kv => (fst kv, value (snd kv)))
      (cache (api_cache (snd (cache_api_response 60 "ping"
                                (counting (Ret (PStr "pong"))) [] [] clock0 world0))))
    = [("df911f0151f9ef021d410b4be5060972", PStr "pong")] /\
  rest (snd (cache_api_response 60 "ping" (counting (Ret (PStr "pong"))) [] [] clock0
          (snd (cache_api_response 60 "ping"
                  (counting (Ret (PStr "pong"))) [] [] clock0 world0)))) = 1%nat.
Proof. vm_compute. repeat split. Qed.

Lemma forced_call_bypasses_llm_cache_witness :
  cache_llm_result (counting (Ret (PDict [("score", PInt 7)])))
    [PStr "resume"] [("force_analyze", PBool true)] clock0 world0 =
  (Ret (PDict [("score", PInt 7)]),
   MkWorld (llm_cache world0) (api_cache world0) 1%nat).
Proof.
  destruct (forced_call_bypasses_llm_cache nat
              (counting (Ret (PDict [("score", PInt 7)])))
              [PStr "resume"] [("force_analyze", PBool true)] clock0 world0 eq_refl)
    as (_ & H & _).
  exact (H (Ret (PDict [("score", PInt 7)])) world0).
Defined.

(** C4 fails as stated for [cache_api_response]: a call that carries
    [force_analyze=True] writes its result to [api_cache], and a second
    such call is answered from the cache without executing the function. *)
Lemma api_wrapper_has_no_force_flag :
  forced [("force_analyze", PBool true)] = true /\
  size (api_cache world0) = 0 /\
  size (api_cache
          (snd (cache_api_response 60 "analyze" (counting (Ret (PList [])))
                  [] [("force_analyze", PBool true)] clock0 world0))) = 1 /\
  rest (snd (cache_api_response 60 "analyze" (counting (Ret (PList [])))
               [] [("force_analyze", PBool true)] clock0
               (snd (cache_api_response 60 "analyze" (counting (Ret (PList [])))
                       [] [("force_analyze", PBool true)] clock0 world0)))) = 1%nat.
Proof. vm_compute. repeat split. Qed.

Lemma none_is_stored_but_never_served_witness :
  exists w2 e,
    cache_api_response 60 "ping" (counting (Ret PNone)) [] [] clock0 world0 =
      (Ret PNone, w2) /\
    lookup "df911f0151f9ef021d410b4be5060972" (cache (api_cache w2)) = Some e /\
    value e = PNone.
Proof.
  assert (Hk : _generate_key [PStr "ping"] [] = Ret "df911f0151f9ef021d410b4be5060972")
    by (vm_compute; reflexivity).
  destruct (none_is_stored_but_never_served nat (counting (Ret PNone)) 60 "ping"
              [] [] clock0 world0 _ eq_refl Hk) as (H & _ & _).
  apply (H world0 (MkWorld (llm_cache world0) (api_cache world0) 1%nat)).
  - vm_compute. reflexivity.
  - reflexivity.
  - now apply can_store_world0_api.
Defined.

(** Two calls of an operation that returns [None]: one entry is stored by
    the first call, and both calls execute the operation. *)
Example none_result_runs_every_time :
  size (api_cache (snd (cache_api_response 60 "ping" (counting (Ret PNone)) [] []
                          clock0 world0))) = 1 /\
  rest (snd (cache_api_response 60 "ping" (counting (Ret PNone)) [] [] clock0
               (snd (cache_api_response 60 "ping" (counting (Ret PNone)) [] []
                       clock0 world0)))) = 2%nat.
Proof. vm_compute. split; reflexivity. Qed.



(* ================================================================== *)
(** * Further properties of the store *)

Lemma lookup_filter (p : string * entry -> bool) d k :
  NoDup (keys d) ->
  lookup k (filter p d) =
  match lookup k d with
  | Some e => if p (k, e) then Some e else None
  | None => None
  end.
Proof.
  induction d as [|[k0 e0] r IH]; intros Hd; simpl; trivial.
  inversion Hd as [|? ? Hn Hr]; subst.
  destruct (p (k0, e0)) eqn:Ep; simpl.
  - destruct (String.eqb_spec k k0) as [->|Hne]; [now rewrite Ep | auto].
  - rewrite (IH Hr). destruct (String.eqb_spec k k0) as [->|Hne]; [| trivial].
    rewrite Ep. apply lookup_None_iff in Hn. now rewrite Hn.
Qed.

Lemma filter_nothing (A : Type) (p : A -> bool) (l : list A) :
  (forall x, In x l -> p x = false) -> filter p l = [].
Proof.
  induction l as [|x l IH]; simpl; intros H; trivial.
  rewrite (H x (or_introl eq_refl)). apply IH. intros y Hy. apply H. now right.
Qed.

Lemma filter_everything (A : Type) (p : A -> bool) (l : list A) :
  (forall x, In x l -> p x = true) -> filter p l = l.
Proof.
  induction l as [|x l IH]; simpl; intros H; trivial.
  rewrite (H x (or_introl eq_refl)). f_equal. apply IH. intros y Hy. apply H. now right.
Qed.

Lemma lookup_last_other (V : Type) (d : list (string * V)) key (e : V) k :
  k <> key -> lookup k (d ++ [(key, e)]) = lookup k d.
Proof.
  intros Hne. rewrite lookup_app. destruct (lookup k d); trivial.
  simpl. destruct (String.eqb_spec k key); [congruence | trivial].
Qed.

Lemma reachable_config m d c :
  reachable m d c -> max_size c = m /\ default_ttl c = d.
Proof.
  induction 1 as
    [ | c args kwargs now v c' _ IH Hg | c v args ttl kwargs now now' c' _ IH Hs
      | c _ IH | c now _ IH ]; auto.
  - destruct (get_inv _ _ _ _ _ _ Hg) as [key Hk].
    rewrite (get_unfold c args kwargs now key Hk) in Hg.
    destruct (lookup key (cache c)) as [item|];
      [destruct (expires_at item <? now) |]; injection Hg as _ <-; exact IH.
  - destruct (set_inv _ _ _ _ _ _ _ _ Hs) as (key & e & _ & _ & _ & ->). exact IH.
  - unfold cleanup. destruct (fold_left _ _ _). exact IH.
Qed.

Lemma stored_replaces m key e d old :
  lookup key d = Some old -> Z.of_nat (List.length d) <= m ->
  stored m key e d = (od_delete key d ++ [(key, e)])%list /\
  List.length (od_delete key d ++ [(key, e)])%list = List.length d.
Proof.
  intros Hold Hm.
  assert (Hlen : List.length (od_delete key d ++ [(key, e)])%list = List.length d).
  { rewrite length_app, length_od_delete. unfold contains. rewrite Hold. simpl.
    destruct d; [discriminate | simpl; lia]. }
  split; trivial. unfold stored. rewrite Hlen.
  destruct (Z.gtb_spec (Z.of_nat (List.length d)) m); [lia | reflexivity].
Qed.

(** X1: [set] on a key that is stored replaces its entry in place of
    evicting: the size is unchanged, the key holds the new value with a new
    expiry time and becomes the most recently used one, and every other
    entry is kept. *)
Theorem set_of_stored_key_replaces :
  forall c v args ttl kwargs now now' key old,
    wf c -> size c <= max_size c ->
    _generate_key args kwargs = Ret key ->
    lookup key (cache c) = Some old ->
    valid_datetime now -> valid_datetime (now + ttl * 1000000) ->
    exists c',
      set c v args (PInt ttl) kwargs now now' = Ret c' /\
      cache c' =
        (od_delete key (cache c) ++ [(key, Entry v (now + ttl * 1000000) now')])%list /\
      size c' = size c /\
      (forall k, k <> key -> lookup k (cache c') = lookup k (cache c)).
Proof.
  intros c v args ttl kwargs now now' key old Hwf Hsz Hk Hold H0 H1.
  rewrite (set_returns c v args ttl kwargs now now' key Hk H0 H1).
  destruct (stored_replaces (max_size c) key (Entry v (now + ttl * 1000000) now')
              (cache c) old Hold Hsz) as [Hst Hlen].
  eexists. split; [reflexivity |]. cbn [cache with_cache]. rewrite Hst.
  split; [reflexivity |]. split; [unfold size, with_cache; cbn [cache]; now rewrite Hlen |].
  intros k Hne. rewrite lookup_last_other by trivial.
  apply lookup_od_delete_neq. congruence.
Qed.

(** X2: [set] never changes the entry of another key, and drops at most
    one: in a cache within its bound, another key is lost only when the key
    written is new, the cache is full and that other key is the least
    recently used one. *)
Theorem set_keeps_other_entries :
  forall c v args ttl kwargs now now' c' key k,
    wf c -> size c <= max_size c ->
    set c v args ttl kwargs now now' = Ret c' ->
    _generate_key args kwargs = Ret key -> k <> key ->
    lookup k (cache c') = lookup k (cache c) \/
    (lookup k (cache c') = None /\ lookup key (cache c) = None /\
     size c = max_size c /\ hd_error (keys (cache c)) = Some k).
Proof.
  intros c v args ttl kwargs now now' c' key k Hwf Hsz Hs Hk Hne.
  destruct (set_inv _ _ _ _ _ _ _ _ Hs) as (key' & e & Hk' & _ & _ & ->).
  assert (key' = key) by congruence. subst key'. simpl.
  destruct (lookup key (cache c)) as [old|] eqn:Hold.
  - left. destruct (stored_replaces (max_size c) key e (cache c) old Hold Hsz) as [-> _].
    rewrite lookup_last_other by trivial. apply lookup_od_delete_neq. congruence.
  - unfold stored. rewrite (od_delete_absent _ key (cache c) Hold).
    rewrite length_app. simpl. unfold size in *.
    destruct (Z.gtb_spec (Z.of_nat (List.length (cache c) + 1)) (max_size c)) as [Hgt|Hle].
    + destruct (cache c) as [|[k0 e0] r] eqn:Ec; simpl.
      * now left.
      * destruct (String.eqb_spec k k0) as [->|Hk0].
        -- right. repeat split; trivial; [| simpl in *; lia].
           unfold wf in Hwf. rewrite Ec in Hwf. inversion Hwf as [|? ? Hn _]; subst.
           rewrite lookup_last_other by trivial. now apply lookup_None_iff.
        -- left. now apply lookup_last_other.
    + left. now apply lookup_last_other.
Qed.

(** X3: [get] never changes a stored value: a lookup of an absent key
    leaves the cache as it is, and a lookup of any key leaves the entries
    of all other keys, at most deleting the entry it asked for. *)
Theorem get_keeps_other_entries :
  forall c args kwargs now v c' key,
    wf c -> get c args kwargs now = Ret (v, c') ->
    _generate_key args kwargs = Ret key ->
    (lookup key (cache c) = None -> v = PNone /\ c' = c) /\
    (forall k, k <> key -> lookup k (cache c') = lookup k (cache c)) /\
    (lookup key (cache c') = lookup key (cache c) \/ lookup key (cache c') = None) /\
    max_size c' = max_size c /\ default_ttl c' = default_ttl c.
Proof.
  intros c args kwargs now v c' key Hwf Hg Hk.
  rewrite (get_unfold c args kwargs now key Hk) in Hg.
  destruct (lookup key (cache c)) as [item|] eqn:Hl.
  - split; [discriminate |].
    destruct (expires_at item <? now); injection Hg as _ <-; simpl.
    + split; [intros k Hne; apply lookup_od_delete_neq; congruence |].
      split; [right; now apply lookup_od_delete_eq | auto].
    + split; [intros k Hne; now apply lookup_od_move_to_end |].
      split; [left; rewrite lookup_od_move_to_end by trivial; exact Hl | auto].
  - injection Hg as <- <-. rewrite Hl. auto.
Qed.

(** X4: a cache built with [max_size <= 0] never holds an entry: every
    [set] evicts what it has just written, and every [get] misses. *)
Theorem zero_capacity_stores_nothing :
  forall m d c,
    m <= 0 -> reachable m d c ->
    cache c = [] /\
    (forall v args ttl kwargs now now' c',
        set c v args ttl kwargs now now' = Ret c' -> cache c' = []) /\
    (forall args kwargs now v c',
        get c args kwargs now = Ret (v, c') -> v = PNone /\ c' = c).
Proof.
  intros m d c Hm Hr.
  assert (He : forall c0, reachable m d c0 -> cache c0 = []).
  { induction 1 as
      [ | c0 args kwargs now v c' _ IH Hg | c0 v args ttl kwargs now now' c' H0 IH Hs
        | c0 _ IH | c0 now _ IH ]; trivial.
    - destruct (get_inv _ _ _ _ _ _ Hg) as [key Hk].
      rewrite (get_unfold c0 args kwargs now key Hk), IH in Hg. simpl in Hg.
      injection Hg as _ <-. exact IH.
    - destruct (set_inv _ _ _ _ _ _ _ _ Hs) as (key & e & _ & _ & _ & ->).
      destruct (reachable_config m d c0 H0) as [Hmax _].
      simpl. rewrite IH, Hmax. unfold stored. simpl.
      destruct (Z.gtb_spec 1 m); [reflexivity | lia].
    - unfold cleanup. rewrite IH. reflexivity. }
  split; [now apply He |]. split.
  - intros v args ttl kwargs now now' c' Hs.
    apply He. eapply reach_set; eauto.
  - intros args kwargs now v c' Hg.
    destruct (get_inv _ _ _ _ _ _ Hg) as [key Hk].
    rewrite (get_unfold c args kwargs now key Hk), (He c Hr) in Hg. simpl in Hg.
    now injection Hg as <- <-.
Qed.

(** X5: after [cleanup] every entry left is live at the time of the sweep,
    and a second sweep at that time or at an earlier one removes nothing. *)
Theorem cleanup_leaves_the_live_and_is_idempotent :
  forall c now,
    wf c ->
    (forall k e, lookup k (cache (snd (cleanup c now))) = Some e ->
                 now <= expires_at e /\ lookup k (cache c) = Some e) /\
    (forall now', now' <= now ->
                  cleanup (snd (cleanup c now)) now' = (0, snd (cleanup c now))).
Proof.
  intros c now Hwf. rewrite (cleanup_spec c now Hwf). simpl. split.
  - intros k e Hl. rewrite lookup_filter in Hl by exact Hwf.
    destruct (lookup k (cache c)) as [e'|]; [| discriminate].
    unfold expired in Hl. simpl in Hl.
    destruct (Z.ltb_spec (expires_at e') now); simpl in Hl; [discriminate |].
    injection Hl as <-. auto.
  - intros now' Hle.
    assert (Hwf' : wf (with_cache c (filter (fun kv => negb (expired now kv)) (cache c))))
      by (unfold wf; simpl; now apply NoDup_keys_filter).
    rewrite (cleanup_spec _ now' Hwf'). cbn [cache with_cache max_size default_ttl].
    assert (Hlive : forall kv,
               In kv (filter (fun kv => negb (expired now kv)) (cache c)) ->
               expired now' kv = false).
    { intros kv Hin. apply filter_In in Hin. destruct Hin as [_ Hn].
      apply negb_true_iff in Hn. unfold expired in *.
      apply Z.ltb_ge in Hn. apply Z.ltb_ge. lia. }
    rewrite (filter_nothing _ _ _ Hlive).
    rewrite (filter_everything _ (fun kv => negb (expired now' kv))).
    + reflexivity.
    + intros kv Hin. now rewrite (Hlive kv Hin).
Qed.

(** X6: sweeping the cache does not change what a lookup answers: at the
    time of the sweep [get] returns the same value before and after
    [cleanup]. *)
Theorem cleanup_does_not_change_get :
  forall c args kwargs now v c',
    wf c -> get c args kwargs now = Ret (v, c') ->
    exists c'', get (snd (cleanup c now)) args kwargs now = Ret (v, c'').
Proof.
  intros c args kwargs now v c' Hwf Hg.
  destruct (get_inv _ _ _ _ _ _ Hg) as [key Hk].
  rewrite (get_unfold c args kwargs now key Hk) in Hg.
  rewrite (get_unfold _ args kwargs now key Hk), (cleanup_spec c now Hwf). simpl.
  rewrite lookup_filter by exact Hwf.
  destruct (lookup key (cache c)) as [item|].
  - unfold expired. simpl.
    destruct (expires_at item <? now) eqn:E; simpl; injection Hg as <- _.
    + eauto.
    + rewrite E. eauto.
  - injection Hg as <- _. eauto.
Qed.

(** X7: the configuration of a cache never changes, and [clear] brings it
    back to the state in which it was built. *)
Theorem clear_resets_the_cache :
  forall m d c,
    reachable m d c ->
    max_size c = m /\ default_ttl c = d /\ clear c = __init__ m d /\
    size (clear c) = 0.
Proof.
  intros m d c Hr. destruct (reachable_config m d c Hr) as [Hm Hd].
  repeat split; trivial. unfold clear, with_cache, __init__. now rewrite Hm, Hd.
Qed.

(* ================================================================== *)
(** * Further properties of the key derivation *)

Lemma le_bytes_shape n x :
  List.length (MD5.le_bytes n x) = n /\
  Forall (fun b => 0 <= b < 256) (MD5.le_bytes n x).
Proof.
  revert x. induction n as [|n IH]; intros x; simpl; [auto |].
  destruct (IH (Z.shiftr x 8)) as [Hl Hf]. split; [now rewrite Hl |].
  constructor; trivial.
  change 255 with (Z.ones 8). rewrite Z.land_ones by lia.
  change (2 ^ 8) with 256. apply Z.mod_pos_bound. lia.
Qed.

Lemma digest_shape msg :
  List.length (MD5.digest msg) = 16%nat /\
  Forall (fun b => 0 <= b < 256) (MD5.digest msg).
Proof.
  unfold MD5.digest. cbv beta zeta.
  set (r := MD5.blocks _ _ _).
  destruct (le_bytes_shape 4 (MD5.ra r)) as [La Fa].
  destruct (le_bytes_shape 4 (MD5.rb r)) as [Lb Fb].
  destruct (le_bytes_shape 4 (MD5.rc r)) as [Lc Fc].
  destruct (le_bytes_shape 4 (MD5.rd r)) as [Ld Fd].
  split.
  - rewrite !length_app, La, Lb, Lc, Ld. reflexivity.
  - repeat (apply Forall_app; split); assumption.
Qed.

Lemma hex_digit_is_hex d : 0 <= d < 16 -> is_hex (hex_digit d) = true.
Proof.
  intros H.
  assert (C : d = 0 \/ d = 1 \/ d = 2 \/ d = 3 \/ d = 4 \/ d = 5 \/ d = 6 \/ d = 7 \/
              d = 8 \/ d = 9 \/ d = 10 \/ d = 11 \/ d = 12 \/ d = 13 \/ d = 14 \/
              d = 15) by lia.
  repeat (destruct C as [->|C]; [reflexivity |]). now subst.
Qed.

Lemma hex_shape bytes :
  Forall (fun b => 0 <= b < 256) bytes ->
  String.length (MD5.hex bytes) = (2 * List.length bytes)%nat /\
  all_chars is_hex (MD5.hex bytes) = true.
Proof.
  induction 1 as [|b r Hb _ [IHl IHc]]; simpl; [auto |].
  split; [rewrite IHl; lia |].
  rewrite !hex_digit_is_hex, IHc; trivial.
  - apply Z.mod_pos_bound. lia.
  - split; [apply Z.div_pos; lia | apply Z.div_lt_upper_bound; lia].
Qed.

(** X8: every key is a text of 32 lower case hexadecimal digits, whatever
    the arguments are. *)
Theorem key_is_32_hex_digits :
  forall args kwargs k,
    _generate_key args kwargs = Ret k ->
    String.length k = 32%nat /\ all_chars is_hex k = true.
Proof.
  intros args kwargs k H. unfold _generate_key in H.
  destruct (key_string args kwargs) as [s|]; simpl in H; [| discriminate].
  injection H as <-. unfold md5_hexdigest.
  destruct (digest_shape (encode s)) as [Hl Hf].
  destruct (hex_shape _ Hf) as [H1 H2]. split; [| exact H2].
  rewrite H1, Hl. reflexivity.
Qed.

Section MapMReturns.

Variables A B : Type.
Variable f : A -> outcome B.

Lemma mapM_returns l :
  Forall (fun x => exists y, f x = Ret y) l -> exists r, mapM f l = Ret r.
Proof.
  induction 1 as [|x l [y Hy] _ [r Hr]]; simpl; [eauto |].
  rewrite Hy, Hr. simpl. eauto.
Qed.

Lemma mapM_returned l r :
  mapM f l = Ret r -> Forall (fun x => exists y, f x = Ret y) l.
Proof.
  revert r. induction l as [|x l IH]; simpl; intros r H; [constructor |].
  destruct (f x) as [y|] eqn:E; simpl in H; [| discriminate].
  destruct (mapM f l) as [ys|]; simpl in H; [| discriminate].
  constructor; eauto.
Qed.

End MapMReturns.

Lemma dumps_returns_iff v : (exists s, dumps v = Ret s) <-> json_data v.
Proof.
  induction v as [ | b | z | s | l IH | d IH | r ] using pyval_nested_ind.
  - split; [constructor | simpl; eauto].
  - split; [constructor | destruct b; simpl; eauto].
  - split; [constructor | simpl; eauto].
  - split; [constructor | simpl; eauto].
  - rewrite dumps_list. rewrite Forall_forall in IH. split.
    + intros [s Hs]. constructor.
      destruct (mapM dumps l) as [ps|] eqn:E; simpl in Hs; [| discriminate].
      apply mapM_returned in E. rewrite Forall_forall in *.
      intros x Hx. apply IH; auto.
    + intros Hj. inversion Hj as [| | | | ? Hl |]; subst.
      destruct (mapM_returns _ _ dumps l) as [ps Hps].
      * rewrite Forall_forall in *. intros x Hx. apply IH; auto.
      * rewrite Hps. simpl. eauto.
  - rewrite dumps_dict. rewrite Forall_forall in IH. split.
    + intros [s Hs]. constructor.
      destruct (mapM member d) as [ps|] eqn:E; simpl in Hs; [| discriminate].
      apply mapM_returned in E. rewrite Forall_forall in *.
      intros x Hx. apply IH; trivial. destruct (E x Hx) as [y Hy].
      unfold member in Hy. destruct (dumps (snd x)); [eauto | discriminate].
    + intros Hj. inversion Hj as [| | | | | ? Hd]; subst.
      destruct (mapM_returns _ _ member d) as [ps Hps].
      * rewrite Forall_forall in *. intros x Hx.
        destruct (proj2 (IH x Hx) (Hd x Hx)) as [s Hs].
        unfold member. rewrite Hs. simpl. eauto.
      * rewrite Hps. simpl. eauto.
  - split; [intros [s Hs]; discriminate | intros Hj; inversion Hj].
Qed.

Lemma part_returns_iff v : (exists s, part v = Ret s) <-> keyable v.
Proof.
  destruct v as [ | [|] | z | s | l | d | r ];
    [ | | | | | exact (dumps_returns_iff (PList l))
      | exact (dumps_returns_iff (PDict d)) | ];
    simpl; (split; [trivial | eauto]).
Qed.

Lemma part_raises v e : part v = Raise e -> e = TypeError.
Proof.
  destruct v as [ | [|] | z | s | l | d | r ]; try discriminate.
  - exact (dumps_raises (PList l) e).
  - exact (dumps_raises (PDict d) e).
Qed.

Lemma kw_part_returns_iff kv : (exists s, kw_part kv = Ret s) <-> keyable (snd kv).
Proof.
  rewrite <- part_returns_iff. unfold kw_part. split.
  - intros [s Hs]. destruct (part (snd kv)); [eauto | discriminate].
  - intros [s Hs]. rewrite Hs. simpl. eauto.
Qed.

Lemma generate_key_raises args kwargs e :
  _generate_key args kwargs = Raise e -> e = TypeError.
Proof.
  unfold _generate_key, key_string.
  destruct (mapM part args) as [pos|e1] eqn:E1; simpl.
  - destruct (mapM kw_part (sorted_items kwargs)) as [kws|e2] eqn:E2; simpl;
      [discriminate |].
    intros H. injection H as ->.
    destruct (mapM_raises _ _ _ _ _ E2) as (x & _ & Hx).
    unfold kw_part in Hx. destruct (part (snd x)) eqn:Ep; simpl in Hx; [discriminate |].
    injection Hx as ->. eapply part_raises; eauto.
  - intros H. injection H as ->.
    destruct (mapM_raises _ _ _ _ _ E1) as (x & _ & Hx). eapply part_raises; eauto.
Qed.

Lemma generate_key_returns_iff args kwargs :
  (exists k, _generate_key args kwargs = Ret k) <->
  (Forall keyable args /\ Forall (fun kv => keyable (snd kv)) kwargs).
Proof.
  unfold _generate_key, key_string. split.
  - intros [k Hk].
    destruct (mapM part args) as [pos|] eqn:E1; simpl in Hk; [| discriminate].
    destruct (mapM kw_part (sorted_items kwargs)) as [kws|] eqn:E2; simpl in Hk;
      [| discriminate].
    apply mapM_returned in E1, E2. rewrite Forall_forall in E1, E2.
    split; apply Forall_forall; intros x Hx.
    + apply part_returns_iff. auto.
    + apply kw_part_returns_iff. apply E2.
      exact (Permutation_in _ (Permutation_sym (sorted_items_perm _ kwargs)) Hx).
  - intros [Ha Hk]. rewrite Forall_forall in Ha, Hk.
    destruct (mapM_returns _ _ part args) as [pos ->].
    { apply Forall_forall. intros x Hx. apply part_returns_iff. auto. }
    destruct (mapM_returns _ _ kw_part (sorted_items kwargs)) as [kws ->].
    { apply Forall_forall. intros x Hx. apply kw_part_returns_iff. apply Hk.
      exact (Permutation_in _ (sorted_items_perm _ kwargs) Hx). }
    simpl. eauto.
Qed.

Lemma generate_key_not_keyable args kwargs :
  ~ (Forall keyable args /\ Forall (fun kv => keyable (snd kv)) kwargs) ->
  _generate_key args kwargs = Raise TypeError.
Proof.
  intros Hn. destruct (_generate_key args kwargs) as [k|e] eqn:E.
  - exfalso. apply Hn. apply generate_key_returns_iff. eauto.
  - now rewrite (generate_key_raises args kwargs e E).
Qed.


Lemma append_inj_r (a : string) :
  forall b s, a ++ s = b ++ s -> a = b.
Proof.
  induction a as [|c a IH]; intros [|c' b] s H; trivial.
  - exfalso. apply (f_equal String.length) in H.
    simpl in H. rewrite string_length_append in H. lia.
  - exfalso. apply (f_equal String.length) in H.
    simpl in H. rewrite string_length_append in H. lia.
  - simpl in H. injection H as -> H. f_equal. eapply IH; eauto.
Qed.

Lemma join_cons_text n l :
  join "|" (n :: l) = n ++ match l with [] => "" | _ => "|" ++ join "|" l end.
Proof.
  destruct l; simpl; trivial.
  clear. induction n; simpl; [trivial | now f_equal].
Qed.

(** X10: the name that [cache_api_response] puts in front of the arguments
    tells functions apart: for the same arguments, two functions of
    different names are hashed from different texts. *)
Theorem function_name_separates_key_texts :
  forall name1 name2 args kwargs s1 s2,
    name1 <> name2 ->
    key_string (PStr name1 :: args) kwargs = Ret s1 ->
    key_string (PStr name2 :: args) kwargs = Ret s2 ->
    s1 <> s2.
Proof.
  intros n1 n2 args kwargs s1 s2 Hne H1 H2.
  destruct (key_string_inv _ _ _ H1) as (pos1 & kws1 & Hp1 & Hk1 & ->).
  destruct (key_string_inv _ _ _ H2) as (pos2 & kws2 & Hp2 & Hk2 & ->).
  simpl in Hp1, Hp2.
  destruct (mapM part args) as [pos|]; simpl in Hp1, Hp2; [| discriminate].
  injection Hp1 as <-. injection Hp2 as <-.
  assert (kws2 = kws1) by congruence. subst kws2.
  change ((n1 :: pos) ++ kws1)%list with (n1 :: (pos ++ kws1))%list.
  change ((n2 :: pos) ++ kws1)%list with (n2 :: (pos ++ kws1))%list.
  rewrite !join_cons_text. intros E. apply Hne. eapply append_inj_r; eauto.
Qed.

(* ================================================================== *)
(** * Further properties of the decorators *)

Section DecoratorEntries.

Variable St : Type.
Implicit Types (w : World St) (func : afun St).

Lemma llm_set_entry result args kwargs clk w key :
  ordinary kwargs = true -> _generate_key args kwargs = Ret key ->
  can_store (llm_cache w) (default_ttl (llm_cache w)) clk ->
  llm_set result args kwargs clk w =
  (Ret tt,
   MkWorld (with_cache (llm_cache w)
              (stored (max_size (llm_cache w)) key
                 (Entry result
                    (at_set clk + default_ttl (llm_cache w) * 1000000)
                    (at_created clk))
                 (cache (llm_cache w))))
           (api_cache w) (rest w)).
Proof.
  intros Ho Hk (Hwf & Hm & H0 & H1).
  destruct (ordinary_inv kwargs Ho) as (Hs & Hv & Ht).
  unfold llm_set. rewrite Hs, Hv. cbn [orb].
  rewrite (without_absent _ "ttl" kwargs Ht).
  unfold contains in Ht. destruct (lookup "ttl" kwargs); [discriminate |].
  now rewrite (set_default_returns _ _ _ _ _ _ key Hk H0 H1).
Qed.

Lemma api_set_entry result name args ttl kwargs clk w key :
  ordinary kwargs = true -> _generate_key (PStr name :: args) kwargs = Ret key ->
  can_store (api_cache w) ttl clk ->
  api_set result name args ttl kwargs clk w =
  (Ret tt,
   MkWorld (llm_cache w)
           (with_cache (api_cache w)
              (stored (max_size (api_cache w)) key
                 (Entry result (at_set clk + ttl * 1000000) (at_created clk))
                 (cache (api_cache w))))
           (rest w)).
Proof.
  intros Ho Hk (Hwf & Hm & H0 & H1).
  destruct (ordinary_inv kwargs Ho) as (Hs & Hv & Ht).
  unfold api_set. rewrite Hs, Hv, Ht. cbn [orb].
  now rewrite (set_returns _ _ _ _ _ _ _ key Hk H0 H1).
Qed.

Lemma is_dict_not_none result : is_dict result = true -> is_none result = false.
Proof. now destruct result. Qed.

End DecoratorEntries.

(** X11: a result cached by [cache_llm_result] is served to the next call
    with the same arguments made before it expires, without executing the
    function; and since the key is made of the arguments alone, it is
    served whatever function that next call wraps. *)
Theorem cached_result_is_served_without_execution :
  forall (St : Type) (func func' : afun St) args kwargs clk clk'
         (w w0 w1 : World St) result key,
    ordinary kwargs = true -> forced kwargs = false ->
    _generate_key args kwargs = Ret key ->
    llm_get args kwargs clk w = (Ret PNone, w0) ->
    func args kwargs w0 = (Ret result, w1) ->
    llm_cacheable result = true ->
    can_store (llm_cache w1) (default_ttl (llm_cache w1)) clk ->
    at_get clk' <= at_set clk + default_ttl (llm_cache w1) * 1000000 ->
    exists w2 w3,
      cache_llm_result func args kwargs clk w = (Ret result, w2) /\
      cache_llm_result func' args kwargs clk' w2 = (Ret result, w3) /\
      rest w3 = rest w2 /\ api_cache w3 = api_cache w2 /\
      size (llm_cache w3) = size (llm_cache w2).
Proof.
  intros St func func' args kwargs clk clk' w w0 w1 result key
    Ho Hnf Hk Hget Hfunc Hc Hcan Hlive.
  destruct (ordinary_inv kwargs Ho) as (Hs & _ & _).
  pose proof Hcan as (Hwf & Hm & _ & _).
  unfold llm_cacheable in Hc.
  assert (Hnn : is_none result = false).
  { apply is_dict_not_none. now apply andb_true_iff in Hc. }
  eexists. eexists. split.
  { unfold cache_llm_result, mbind. rewrite Hnf, Hget. cbn [is_none negb].
    rewrite Hfunc, Hc.
    rewrite (llm_set_entry St result args kwargs clk w1 key Ho Hk Hcan).
    reflexivity. }
  rewrite (cache_llm_result_unfold St func' args kwargs clk' Hnf).
  unfold mbind. rewrite (llm_get_unfold St args kwargs clk' _ key Hs Hk).
  cbn [llm_cache api_cache rest cache with_cache].
  rewrite (lookup_stored_eq _ key _ _ Hm Hwf). cbn [expires_at value].
  destruct (Z.ltb_spec (at_set clk + default_ttl (llm_cache w1) * 1000000) (at_get clk'));
    [lia |].
  rewrite Hnn. cbn [negb]. unfold mret. split; [reflexivity |].
  cbn [llm_cache api_cache rest]. repeat split.
  unfold size. cbn [cache with_cache]. now rewrite length_od_move_to_end.
Qed.

(** X12: a result cached by [cache_api_response(ttl)] is served to the next
    call of a function of that name with the same arguments while [ttl]
    seconds have not elapsed, without executing the function; once they
    have, the lookup deletes the entry and the function is executed
    again. *)
Theorem api_result_is_served_for_ttl_seconds :
  forall (St : Type) (func func' : afun St) ttl name args kwargs clk clk'
         (w w0 w1 : World St) result key,
    ordinary kwargs = true ->
    _generate_key (PStr name :: args) kwargs = Ret key ->
    api_get name args kwargs clk w = (Ret PNone, w0) ->
    func args kwargs w0 = (Ret result, w1) ->
    api_cacheable result = true -> is_none result = false ->
    can_store (api_cache w1) ttl clk ->
    exists w2,
      cache_api_response ttl name func args kwargs clk w = (Ret result, w2) /\
      (at_get clk' <= at_set clk + ttl * 1000000 ->
       exists w3,
         cache_api_response ttl name func' args kwargs clk' w2 = (Ret result, w3) /\
         rest w3 = rest w2 /\ llm_cache w3 = llm_cache w2) /\
      (at_set clk + ttl * 1000000 < at_get clk' ->
       exists w3,
         api_get name args kwargs clk' w2 = (Ret PNone, w3) /\
         lookup key (cache (api_cache w3)) = None /\
         cache_api_response ttl name func' args kwargs clk' w2 =
         api_call_and_cache ttl name func' args kwargs clk' w3).
Proof.
  intros St func func' ttl name args kwargs clk clk' w w0 w1 result key
    Ho Hk Hget Hfunc Hc Hnn Hcan.
  destruct (ordinary_inv kwargs Ho) as (Hs & _ & _).
  pose proof Hcan as (Hwf & Hm & _ & _).
  unfold api_cacheable in Hc.
  eexists. split.
  { unfold cache_api_response, mbind. rewrite Hget. cbn [is_none negb].
    rewrite Hfunc, Hc.
    rewrite (api_set_entry St result name args ttl kwargs clk w1 key Ho Hk Hcan).
    reflexivity. }
  split; intros Ht.
  - rewrite cache_api_response_unfold.
    unfold mbind. rewrite (api_get_unfold St name args kwargs clk' _ key Hs Hk).
    cbn [llm_cache api_cache rest cache with_cache].
    rewrite (lookup_stored_eq _ key _ _ Hm Hwf). cbn [expires_at value].
    destruct (Z.ltb_spec (at_set clk + ttl * 1000000) (at_get clk')); [lia |].
    rewrite Hnn. cbn [negb]. unfold mret. eexists. split; [reflexivity |].
    cbn [llm_cache rest]. auto.
  - rewrite cache_api_response_unfold.
    unfold mbind. rewrite (api_get_unfold St name args kwargs clk' _ key Hs Hk).
    cbn [llm_cache api_cache rest cache with_cache].
    rewrite (lookup_stored_eq _ key _ _ Hm Hwf). cbn [expires_at value].
    destruct (Z.ltb_spec (at_set clk + ttl * 1000000) (at_get clk')); [| lia].
    eexists. split; [reflexivity |]. split; [| reflexivity].
    cbn [api_cache cache with_cache].
    apply lookup_od_delete_eq. now apply NoDup_stored.
Qed.

Section WrapperFacts.

Variable St : Type.
Implicit Types (w : World St) (func : afun St).

Lemma api_miss_runs ttl name func args kwargs clk w key :
  contains "self" kwargs = false ->
  _generate_key (PStr name :: args) kwargs = Ret key ->
  lookup key (cache (api_cache w)) = None ->
  cache_api_response ttl name func args kwargs clk w =
  api_call_and_cache ttl name func args kwargs clk w.
Proof.
  intros Hs Hkey Hk. rewrite cache_api_response_unfold.
  unfold mbind. now rewrite (api_get_unfold St name args kwargs clk w key Hs Hkey), Hk.
Qed.

Lemma llm_get_raises args kwargs clk w e :
  _generate_key args kwargs = Raise e ->
  llm_get args kwargs clk w = (Raise TypeError, w).
Proof.
  intros H. unfold llm_get. destruct (contains "self" kwargs); trivial.
  unfold get. rewrite H. cbn [bind].
  now rewrite (generate_key_raises args kwargs e H).
Qed.

Lemma api_get_raises name args kwargs clk w e :
  _generate_key (PStr name :: args) kwargs = Raise e ->
  api_get name args kwargs clk w = (Raise TypeError, w).
Proof.
  intros H. unfold api_get. destruct (contains "self" kwargs); trivial.
  unfold get. rewrite H. cbn [bind].
  now rewrite (generate_key_raises _ kwargs e H).
Qed.

Lemma generate_key_named name args kwargs e :
  _generate_key args kwargs = Raise e ->
  _generate_key (PStr name :: args) kwargs = Raise TypeError.
Proof.
  intros H. apply generate_key_not_keyable. intros [Ha Hk].
  assert (Hr : exists k, _generate_key args kwargs = Ret k).
  { apply generate_key_returns_iff. split; [now inversion Ha | exact Hk]. }
  destruct Hr as [k Hr]. congruence.
Qed.

(** What [llm_get] and [api_get] leave of the other cache and of the rest
    of the world. *)
Lemma llm_get_frame args kwargs clk w :
  api_cache (snd (llm_get args kwargs clk w)) = api_cache w /\
  rest (snd (llm_get args kwargs clk w)) = rest w.
Proof.
  unfold llm_get. destruct (contains "self" kwargs); [now split |].
  destruct (get _ _ _ _) as [[v c]|e]; now split.
Qed.

Lemma api_get_frame name args kwargs clk w :
  llm_cache (snd (api_get name args kwargs clk w)) = llm_cache w /\
  rest (snd (api_get name args kwargs clk w)) = rest w.
Proof.
  unfold api_get. destruct (contains "self" kwargs); [now split |].
  destruct (get _ _ _ _) as [[v c]|e]; now split.
Qed.

Lemma llm_set_frame result args kwargs clk w :
  api_cache (snd (llm_set result args kwargs clk w)) = api_cache w /\
  rest (snd (llm_set result args kwargs clk w)) = rest w.
Proof.
  unfold llm_set. destruct (_ || _); [now split |].
  destruct (set _ _ _ _ _ _ _) as [c|e]; now split.
Qed.

Lemma api_set_frame result name args ttl kwargs clk w :
  llm_cache (snd (api_set result name args ttl kwargs clk w)) = llm_cache w /\
  rest (snd (api_set result name args ttl kwargs clk w)) = rest w.
Proof.
  unfold api_set. destruct (_ || _); [now split |].
  destruct (set _ _ _ _ _ _ _) as [c|e]; now split.
Qed.

Lemma llm_get_reachable m d args kwargs clk w :
  reachable m d (llm_cache w) ->
  reachable m d (llm_cache (snd (llm_get args kwargs clk w))).
Proof.
  intros H. unfold llm_get. destruct (contains "self" kwargs); trivial.
  destruct (get _ _ _ _) as [[v c]|e] eqn:E; trivial.
  cbn [snd llm_cache]. eapply reach_get; eauto.
Qed.

Lemma api_get_reachable m d name args kwargs clk w :
  reachable m d (api_cache w) ->
  reachable m d (api_cache (snd (api_get name args kwargs clk w))).
Proof.
  intros H. unfold api_get. destruct (contains "self" kwargs); trivial.
  destruct (get _ _ _ _) as [[v c]|e] eqn:E; trivial.
  cbn [snd api_cache]. eapply reach_get; eauto.
Qed.

Lemma llm_set_reachable m d result args kwargs clk w :
  reachable m d (llm_cache w) ->
  reachable m d (llm_cache (snd (llm_set result args kwargs clk w))).
Proof.
  intros H. unfold llm_set. destruct (_ || _); trivial.
  destruct (set _ _ _ _ _ _ _) as [c|e] eqn:E; trivial.
  cbn [snd llm_cache]. eapply reach_set; eauto.
Qed.

Lemma api_set_reachable m d result name args ttl kwargs clk w :
  reachable m d (api_cache w) ->
  reachable m d (api_cache (snd (api_set result name args ttl kwargs clk w))).
Proof.
  intros H. unfold api_set. destruct (_ || _); trivial.
  destruct (set _ _ _ _ _ _ _) as [c|e] eqn:E; trivial.
  cbn [snd api_cache]. eapply reach_set; eauto.
Qed.

(** Every step of a wrapper is a lookup, an execution of the function or a
    write: what all three preserve, the wrapper preserves. *)
Lemma llm_wrapper_steps func args kwargs clk (P : World St -> World St -> Prop) :
  (forall w0, P w0 w0) ->
  (forall w0 w1 w2, P w0 w1 -> P w1 w2 -> P w0 w2) ->
  (forall a k w0, P w0 (snd (func a k w0))) ->
  (forall w0, P w0 (snd (llm_get args kwargs clk w0))) ->
  (forall r w0, P w0 (snd (llm_set r args kwargs clk w0))) ->
  forall w, P w (snd (cache_llm_result func args kwargs clk w)).
Proof.
  intros Prefl Ptrans Pf Pg Ps w. unfold cache_llm_result.
  destruct (forced kwargs); [apply Pf |]. unfold mbind.
  pose proof (Pg w) as Hg.
  destruct (llm_get args kwargs clk w) as [[cached|e] w0]; cbn [snd] in Hg; trivial.
  destruct (negb (is_none cached)); trivial.
  pose proof (Pf args kwargs w0) as Hf.
  destruct (func args kwargs w0) as [[result|e] w1]; cbn [snd] in Hf |- *;
    [| eauto].
  destruct (is_dict result && negb (has_error_key result)); [| cbn; eauto].
  pose proof (Ps result w1) as Hs.
  destruct (llm_set result args kwargs clk w1) as [[[]|e] w2]; cbn [snd] in Hs |- *;
    eauto.
Qed.

Lemma api_wrapper_steps ttl name func args kwargs clk
  (P : World St -> World St -> Prop) :
  (forall w0, P w0 w0) ->
  (forall w0 w1 w2, P w0 w1 -> P w1 w2 -> P w0 w2) ->
  (forall a k w0, P w0 (snd (func a k w0))) ->
  (forall w0, P w0 (snd (api_get name args kwargs clk w0))) ->
  (forall r w0, P w0 (snd (api_set r name args ttl kwargs clk w0))) ->
  forall w, P w (snd (cache_api_response ttl name func args kwargs clk w)).
Proof.
  intros Prefl Ptrans Pf Pg Ps w. unfold cache_api_response, mbind.
  pose proof (Pg w) as Hg.
  destruct (api_get name args kwargs clk w) as [[cached|e] w0]; cbn [snd] in Hg; trivial.
  destruct (negb (is_none cached)); trivial.
  pose proof (Pf args kwargs w0) as Hf.
  destruct (func args kwargs w0) as [[result|e] w1]; cbn [snd] in Hf |- *;
    [| eauto].
  destruct (negb (is_dict result) || negb (has_error_key result)); [| cbn; eauto].
  pose proof (Ps result w1) as Hs.
  destruct (api_set result name args ttl kwargs clk w1) as [[[]|e] w2];
    cbn [snd] in Hs |- *; eauto.
Qed.

End WrapperFacts.

(** X13: a call that fails is not remembered.  When the lookup finds
    nothing and the function raises, or returns what the wrapper does not
    write back, the wrapper hands over that outcome and leaves the world as
    the function left it; the next call with the same arguments executes
    the function again. *)
Theorem failed_call_is_retried :
  forall (St : Type) (func func' : afun St) ttl name args kwargs clk clk'
         (w w1 : World St) r,
    contains "self" kwargs = false ->
    func args kwargs w = (r, w1) ->
    (forall key,
        forced kwargs = false -> _generate_key args kwargs = Ret key ->
        lookup key (cache (llm_cache w)) = None ->
        llm_failure r -> llm_cache w1 = llm_cache w ->
        cache_llm_result func args kwargs clk w = (r, w1) /\
        cache_llm_result func' args kwargs clk' w1 =
        llm_call_and_cache func' args kwargs clk' w1) /\
    (forall key,
        _generate_key (PStr name :: args) kwargs = Ret key ->
        lookup key (cache (api_cache w)) = None ->
        api_failure r -> api_cache w1 = api_cache w ->
        cache_api_response ttl name func args kwargs clk w = (r, w1) /\
        cache_api_response ttl name func' args kwargs clk' w1 =
        api_call_and_cache ttl name func' args kwargs clk' w1).
Proof.
  intros St func func' ttl name args kwargs clk clk' w w1 r Hs Hfunc. split.
  - intros key Hnf Hk Habs Hfail Hsame. split.
    + rewrite (llm_miss_runs St func args kwargs clk w key Hnf Hs Hk Habs).
      unfold llm_call_and_cache, mbind. rewrite Hfunc.
      destruct r as [result|e]; [| reflexivity].
      cbn [llm_failure] in Hfail. unfold llm_cacheable in Hfail. now rewrite Hfail.
    + apply (llm_miss_runs St func' args kwargs clk' w1 key Hnf Hs Hk). congruence.
  - intros key Hk Habs Hfail Hsame. split.
    + rewrite (api_miss_runs St ttl name func args kwargs clk w key Hs Hk Habs).
      unfold api_call_and_cache, mbind. rewrite Hfunc.
      destruct r as [result|e]; [| reflexivity].
      cbn [api_failure] in Hfail. unfold api_cacheable in Hfail. now rewrite Hfail.
    + apply (api_miss_runs St ttl name func' args kwargs clk' w1 key Hs Hk). congruence.
Qed.

(** X14: when no key can be derived from the arguments, the call raises
    [TypeError] in the lookup, before the function is executed: whatever
    function is wrapped, the world is left as it was.  Only a call of a
    function wrapped by [cache_llm_result] with [force_analyze] set gets
    past. *)
Theorem underivable_key_stops_the_call :
  forall (St : Type) (func : afun St) ttl name args kwargs clk (w : World St) e,
    _generate_key args kwargs = Raise e ->
    (forced kwargs = false ->
     cache_llm_result func args kwargs clk w = (Raise TypeError, w)) /\
    (forced kwargs = true ->
     cache_llm_result func args kwargs clk w = func args kwargs w) /\
    cache_api_response ttl name func args kwargs clk w = (Raise TypeError, w).
Proof.
  intros St func ttl name args kwargs clk w e H. split; [| split].
  - intros Hnf. rewrite (cache_llm_result_unfold St func args kwargs clk Hnf).
    unfold mbind. now rewrite (llm_get_raises St args kwargs clk w e H).
  - intros Hf. unfold cache_llm_result. now rewrite Hf.
  - rewrite cache_api_response_unfold. unfold mbind.
    now rewrite (api_get_raises St name args kwargs clk w TypeError
                   (generate_key_named name args kwargs e H)).
Qed.

(** X15: the two decorators use separate stores.  A call through
    [cache_llm_result] changes [api_cache] only as the function itself
    does, and a call through [cache_api_response] changes [llm_cache] only
    as the function itself does; neither changes anything else of the
    world that the function leaves alone. *)
Theorem decorators_use_separate_caches :
  forall (St : Type) (func : afun St) ttl name args kwargs clk (w : World St),
    (leaves_api_cache func ->
     api_cache (snd (cache_llm_result func args kwargs clk w)) = api_cache w) /\
    (leaves_llm_cache func ->
     llm_cache (snd (cache_api_response ttl name func args kwargs clk w)) = llm_cache w) /\
    ((forall a k w0, rest (snd (func a k w0)) = rest w0) ->
     rest (snd (cache_llm_result func args kwargs clk w)) = rest w /\
     rest (snd (cache_api_response ttl name func args kwargs clk w)) = rest w).
Proof.
  intros St func ttl name args kwargs clk w.
  split; [| split].
  - intros Hf.
    apply (llm_wrapper_steps St func args kwargs clk
             (fun w0 w1 => api_cache w1 = api_cache w0)).
    + reflexivity.
    + intros w0 w1 w2 H1 H2. now rewrite H2.
    + intros. apply Hf.
    + intros. apply llm_get_frame.
    + intros. apply llm_set_frame.
  - intros Hf.
    apply (api_wrapper_steps St ttl name func args kwargs clk
             (fun w0 w1 => llm_cache w1 = llm_cache w0)).
    + reflexivity.
    + intros w0 w1 w2 H1 H2. now rewrite H2.
    + intros. apply Hf.
    + intros. apply api_get_frame.
    + intros. apply api_set_frame.
  - intros Hf. split.
    + apply (llm_wrapper_steps St func args kwargs clk
               (fun w0 w1 => rest w1 = rest w0)).
      * reflexivity.
      * intros w0 w1 w2 H1 H2. now rewrite H2.
      * intros. apply Hf.
      * intros. apply llm_get_frame.
      * intros. apply llm_set_frame.
    + apply (api_wrapper_steps St ttl name func args kwargs clk
               (fun w0 w1 => rest w1 = rest w0)).
      * reflexivity.
      * intros w0 w1 w2 H1 H2. now rewrite H2.
      * intros. apply Hf.
      * intros. apply api_get_frame.
      * intros. apply api_set_frame.
Qed.

(** X16: the global stores stay within their bounds under wrapped calls.
    If [llm_cache] and [api_cache] are in states that the operations of the
    store can produce from the instances created at import, with 500 and
    1000 entries at most, then so they are after a call through either
    decorator of a function that leaves them alone. *)
Theorem wrapped_calls_keep_the_caches_bounded :
  forall (St : Type) (func : afun St) ttl name args kwargs clk (w w' : World St),
    leaves_llm_cache func -> leaves_api_cache func ->
    reachable 500 86400 (llm_cache w) -> reachable 1000 300 (api_cache w) ->
    w' = snd (cache_llm_result func args kwargs clk w) \/
    w' = snd (cache_api_response ttl name func args kwargs clk w) ->
    reachable 500 86400 (llm_cache w') /\ reachable 1000 300 (api_cache w') /\
    size (llm_cache w') <= 500 /\ size (api_cache w') <= 1000.
Proof.
  intros St func ttl name args kwargs clk w w' Hl Ha Rl Ra Hw'.
  assert (R : reachable 500 86400 (llm_cache w') /\ reachable 1000 300 (api_cache w')).
  { pose (P := fun w0 w1 : World St =>
                 reachable 500 86400 (llm_cache w0) /\
                 reachable 1000 300 (api_cache w0) ->
                 reachable 500 86400 (llm_cache w1) /\
                 reachable 1000 300 (api_cache w1)).
    assert (Pf : forall a k w0, P w0 (snd (func a k w0))).
    { intros a k w0 H. now rewrite Hl, Ha. }
    destruct Hw' as [-> | ->].
    - apply (llm_wrapper_steps St func args kwargs clk P); subst P; cbv beta; auto.
      + intros w0 [H1 H2]. split; [now apply llm_get_reachable |].
        now rewrite (proj1 (llm_get_frame St args kwargs clk w0)).
      + intros r w0 [H1 H2]. split; [now apply llm_set_reachable |].
        now rewrite (proj1 (llm_set_frame St r args kwargs clk w0)).
    - apply (api_wrapper_steps St ttl name func args kwargs clk P); subst P; cbv beta; auto.
      + intros w0 [H1 H2]. split; [| now apply api_get_reachable].
        now rewrite (proj1 (api_get_frame St name args kwargs clk w0)).
      + intros r w0 [H1 H2]. split; [| now apply api_set_reachable].
        now rewrite (proj1 (api_set_frame St r name args ttl kwargs clk w0)). }
  destruct R as [R1 R2]. repeat split; trivial.
  - apply (reachable_inv 500 86400); [lia | exact R1].
  - apply (reachable_inv 1000 300); [lia | exact R2].
Qed.

(** X17: a keyword argument named [ttl] in a call of a function wrapped by
    [cache_llm_result] is part of the key that the lookup uses, but [set]
    takes it as its own parameter: the result is written under the key of
    the call without that keyword, to live [t] seconds instead of the
    default time. *)
Theorem ttl_keyword_is_taken_by_set :
  forall (St : Type) (func : afun St) args kwargs clk (w w0 w1 : World St)
         result t key,
    contains "self" kwargs = false -> contains "value" kwargs = false ->
    forced kwargs = false ->
    lookup "ttl" kwargs = Some (PInt t) ->
    _generate_key args (without "ttl" kwargs) = Ret key ->
    llm_get args kwargs clk w = (Ret PNone, w0) ->
    func args kwargs w0 = (Ret result, w1) ->
    llm_cacheable result = true ->
    can_store (llm_cache w1) t clk ->
    cache_llm_result func args kwargs clk w =
    (Ret result,
     MkWorld (with_cache (llm_cache w1)
                (stored (max_size (llm_cache w1)) key
                   (Entry result (at_set clk + t * 1000000) (at_created clk))
                   (cache (llm_cache w1))))
             (api_cache w1) (rest w1)).
Proof.
  intros St func args kwargs clk w w0 w1 result t key Hs Hv Hnf Ht Hk Hget Hfunc
    Hc (Hwf & Hm & H0 & H1).
  unfold cache_llm_result, mbind. rewrite Hnf, Hget. cbn [is_none negb].
  unfold llm_cacheable in Hc. rewrite Hfunc, Hc.
  unfold llm_set. rewrite Hs, Hv, Ht. cbn [orb].
  now rewrite (set_returns _ _ _ _ _ _ _ key Hk H0 H1).
Qed.

(** X18: keyword arguments named after a parameter of the store.  A
    keyword [self] makes the lookup raise [TypeError] before the function
    is executed.  A keyword [value], and for [cache_api_response] a
    keyword [ttl] as well, passes the lookup and makes the write raise
    [TypeError] after the function has been executed: the result is lost
    and nothing is cached. *)
Theorem parameter_named_keywords_raise :
  forall (St : Type) (func : afun St) ttl name args kwargs clk (w : World St),
    (contains "self" kwargs = true ->
     (forced kwargs = false ->
      cache_llm_result func args kwargs clk w = (Raise TypeError, w)) /\
     cache_api_response ttl name func args kwargs clk w = (Raise TypeError, w)) /\
    (forall w0 w1 result,
        contains "value" kwargs = true -> forced kwargs = false ->
        llm_get args kwargs clk w = (Ret PNone, w0) ->
        func args kwargs w0 = (Ret result, w1) -> llm_cacheable result = true ->
        cache_llm_result func args kwargs clk w = (Raise TypeError, w1)) /\
    (forall w0 w1 result,
        contains "value" kwargs || contains "ttl" kwargs = true ->
        api_get name args kwargs clk w = (Ret PNone, w0) ->
        func args kwargs w0 = (Ret result, w1) -> api_cacheable result = true ->
        cache_api_response ttl name func args kwargs clk w = (Raise TypeError, w1)).
Proof.
  intros St func ttl name args kwargs clk w. split; [| split].
  - intros Hs. split.
    + intros Hnf. unfold cache_llm_result, mbind, llm_get. now rewrite Hnf, Hs.
    + unfold cache_api_response, mbind, api_get. now rewrite Hs.
  - intros w0 w1 result Hv Hnf Hget Hfunc Hc.
    unfold cache_llm_result, mbind. rewrite Hnf, Hget. cbn [is_none negb].
    unfold llm_cacheable in Hc. rewrite Hfunc, Hc.
    unfold llm_set. rewrite Hv, orb_true_r. reflexivity.
  - intros w0 w1 result Hv Hget Hfunc Hc.
    unfold cache_api_response, mbind. rewrite Hget. cbn [is_none negb].
    unfold api_cacheable in Hc. rewrite Hfunc, Hc.
    unfold api_set. rewrite <- orb_assoc, Hv, orb_true_r. reflexivity.
Qed.

(* ================================================================== *)
(** * The PDF text extraction *)

Section ParserFacts.

Variable E : Type.
Implicit Types (pages : list (Page E)) (text_parts : list string).

Lemma extract_pages_spec max_pages pages : forall i text_parts,
  extract_pages max_pages i pages text_parts =
  match page_texts (firstn (Z.to_nat (max_pages - i)) pages) with
  | PdfRet l => PdfRet (text_parts ++ filter nonempty l)%list
  | PdfRaise e => PdfRaise e
  end.
Proof.
  induction pages as [|page pages' IH]; intros i text_parts.
  - rewrite firstn_nil. cbn. now rewrite app_nil_r.
  - cbn [extract_pages]. destruct (Z.geb_spec i max_pages) as [Hge|Hlt].
    + replace (Z.to_nat (max_pages - i)) with 0%nat by lia.
      cbn. now rewrite app_nil_r.
    + replace (Z.to_nat (max_pages - i)) with (S (Z.to_nat (max_pages - (i + 1))))
        by lia.
      cbn [firstn page_texts]. destruct page as [page_text|e]; [| reflexivity].
      rewrite IH.
      destruct (page_texts (firstn (Z.to_nat (max_pages - (i + 1))) pages'))
        as [l|e]; [| reflexivity].
      cbn [filter truthy]. fold (nonempty page_text).
      destruct (nonempty page_text); [| reflexivity].
      now rewrite <- app_assoc.
Qed.

Lemma extract_text_within_limit PdfReader file_content max_pages pages :
  Z.of_nat (List.length file_content) <= size_limit ->
  PdfReader file_content = PdfRet pages ->
  extract_text_from_pdf PdfReader file_content max_pages =
  match page_texts (firstn (Z.to_nat max_pages) pages) with
  | PdfRet l => PdfRet (join newline (filter nonempty l))
  | PdfRaise e => PdfRaise e
  end.
Proof.
  unfold size_limit. intros Hlen Hr. unfold extract_text_from_pdf.
  destruct (Z.gtb_spec (Z.of_nat (List.length file_content)) (10 * 1024 * 1024));
    [lia |].
  rewrite Hr, extract_pages_spec, Z.sub_0_r.
  now destruct (page_texts (firstn (Z.to_nat max_pages) pages)).
Qed.

End ParserFacts.

(** X19: a file of more than 10 MiB is rejected with [ValueError] before
    the reader sees it: the outcome is the same whatever the reader would
    do with the content. *)
Theorem oversize_file_is_rejected_unread :
  forall (E : Type) (PdfReader : list Z -> pdf_outcome E (list (Page E)))
         file_content max_pages,
    size_limit < Z.of_nat (List.length file_content) ->
    extract_text_from_pdf PdfReader file_content max_pages =
    PdfRaise (ValueError "PDF file too large (max 10MB)").
Proof.
  unfold size_limit. intros E PdfReader file_content max_pages H.
  unfold extract_text_from_pdf.
  destruct (Z.gtb_spec (Z.of_nat (List.length file_content)) (10 * 1024 * 1024)); [| lia].
  reflexivity.
Qed.

(** X20: for a file within the limit that the reader opens, the text
    extracted is the texts of the first [max_pages] pages, the empty ones
    left out, joined by a newline; the first of those pages that raises
    makes the call raise the same exception. *)
Theorem extracted_text_is_the_first_pages_joined :
  forall (E : Type) (PdfReader : list Z -> pdf_outcome E (list (Page E)))
         file_content max_pages pages,
    Z.of_nat (List.length file_content) <= size_limit ->
    PdfReader file_content = PdfRet pages ->
    extract_text_from_pdf PdfReader file_content max_pages =
    match page_texts (firstn (Z.to_nat max_pages) pages) with
    | PdfRet l => PdfRet (join newline (filter nonempty l))
    | PdfRaise e => PdfRaise e
    end.
Proof. intros. now apply extract_text_within_limit. Qed.

(** X21: the pages past [max_pages] are never read.  Two documents within
    the size limit whose first [max_pages] pages are the same give the same
    outcome, whatever the later pages hold or raise; with [max_pages] at
    zero or below, the outcome is the empty text. *)
Theorem pages_past_the_limit_are_not_read :
  forall (E : Type) (PdfReader PdfReader' : list Z -> pdf_outcome E (list (Page E)))
         file_content file_content' max_pages pages pages',
    Z.of_nat (List.length file_content) <= size_limit ->
    Z.of_nat (List.length file_content') <= size_limit ->
    PdfReader file_content = PdfRet pages ->
    PdfReader' file_content' = PdfRet pages' ->
    (firstn (Z.to_nat max_pages) pages = firstn (Z.to_nat max_pages) pages' ->
     extract_text_from_pdf PdfReader file_content max_pages =
     extract_text_from_pdf PdfReader' file_content' max_pages) /\
    (max_pages <= 0 ->
     extract_text_from_pdf PdfReader file_content max_pages = PdfRet "").
Proof.
  intros E PdfReader PdfReader' file_content file_content' max_pages pages pages'
    Hl Hl' Hr Hr'.
  rewrite (extract_text_within_limit E PdfReader file_content max_pages pages Hl Hr).
  rewrite (extract_text_within_limit E PdfReader' file_content' max_pages pages' Hl' Hr').
  split.
  - intros ->. reflexivity.
  - intros Hm. replace (Z.to_nat max_pages) with 0%nat by lia. reflexivity.
Qed.

(* ================================================================== *)
(** * The functions that ask the model *)

Section BindingFacts.

Lemma bind_positional_rest params : forall args r k,
  bind_positional params args = Ret r ->
  contains k params = false -> contains k (snd r) = false.
Proof.
  unfold contains.
  induction params as [|[p d] params' IH]; intros args r k H Hk.
  - destruct args; [| discriminate]. now injection H as <-.
  - destruct args as [|a args'].
    + now injection H as <-.
    + cbn [bind_positional] in H.
      destruct (bind_positional params' args') as [r'|] eqn:E; [| discriminate].
      cbn [bind] in H. injection H as <-. cbn [snd].
      apply (IH args' r' k E). cbn [lookup] in Hk.
      now destruct (String.eqb k p).
Qed.

Lemma bind_positional_raises params : forall args e,
  bind_positional params args = Raise e -> e = TypeError.
Proof.
  induction params as [|[p d] params' IH]; intros args e H.
  - destruct args; [discriminate | now injection H].
  - destruct args as [|a args']; [discriminate |].
    cbn [bind_positional] in H.
    destruct (bind_positional params' args') as [r'|e'] eqn:E; [discriminate |].
    cbn [bind] in H. injection H as <-. eapply IH; eauto.
Qed.

Lemma lookup_In_pair (V : Type) (d : list (string * V)) k v :
  lookup k d = Some v -> In (k, v) d.
Proof.
  induction d as [|[k' v'] r IH]; [discriminate |]. cbn [lookup].
  destruct (String.eqb_spec k k') as [->|].
  - intros H. injection H as ->. now left.
  - intros H. right. auto.
Qed.

(** A keyword that names no parameter makes the call raise [TypeError]. *)
Lemma unexpected_keyword params args kwargs k :
  contains k kwargs = true -> contains k params = false ->
  bind_arguments params args kwargs = Raise TypeError.
Proof.
  intros Hk Hp. unfold bind_arguments.
  destruct (bind_positional params args) as [r|e] eqn:E; cbn [bind].
  - assert (Hr := bind_positional_rest params args r k E Hp).
    assert (Hex : existsb (fun kv => negb (contains (fst kv) (snd r))) kwargs = true).
    { apply existsb_exists. unfold contains in Hk.
      destruct (lookup k kwargs) as [v|] eqn:El; [| discriminate].
      exists (k, v). split; [now apply lookup_In_pair |]. cbn [fst]. now rewrite Hr. }
    now rewrite Hex.
  - now rewrite (bind_positional_raises params args e E).
Qed.

End BindingFacts.

Section ServiceFacts.

Variable St : Type.

Lemma def_unexpected_keyword params (body : body_t St) args kwargs k w :
  contains k kwargs = true -> contains k params = false ->
  def params body args kwargs w = (Raise TypeError, w).
Proof.
  intros Hk Hp. unfold def. now rewrite (unexpected_keyword params args kwargs k Hk Hp).
Qed.

Lemma forced_contains kwargs : forced kwargs = true -> contains "force_analyze" kwargs = true.
Proof.
  unfold forced, contains. now destruct (lookup "force_analyze" kwargs).
Qed.

Lemma wrapped_def_rejects_keyword params (body : body_t St) args kwargs clk w :
  contains "force_analyze" params = false ->
  forced kwargs = true ->
  cache_llm_result (def params body) args kwargs clk w = (Raise TypeError, w).
Proof.
  intros Hp Hf. unfold cache_llm_result. rewrite Hf.
  apply (def_unexpected_keyword params body args kwargs "force_analyze");
    [now apply forced_contains | exact Hp].
Qed.

End ServiceFacts.

(** X22: none of the four decorated functions has a parameter named
    [force_analyze].  A call that carries a true [force_analyze], which the
    decorator hands to the function with the other arguments, raises
    [TypeError] without the model being asked, and leaves the world as it
    was. *)
Theorem llm_functions_reject_force_analyze :
  forall (St : Type) (request : body_t St)
         (request' : list (string * pyval) -> M St string)
         args kwargs clk (w : World St),
    forced kwargs = true ->
    cache_llm_result (parse_resume request) args kwargs clk w = (Raise TypeError, w) /\
    cache_llm_result (parse_jd request) args kwargs clk w = (Raise TypeError, w) /\
    cache_llm_result (analyze_gap request) args kwargs clk w = (Raise TypeError, w) /\
    cache_llm_result (generate_resume_content request') args kwargs clk w =
    (Raise TypeError, w).
Proof.
  intros St request request' args kwargs clk w Hf.
  repeat split; now apply wrapped_def_rejects_keyword.
Qed.

(** X23: [analyze_gap] answers a resume that is an error dictionary with a
    placeholder analysis of score 0, without asking the model; the
    placeholder has no ["error"] key, so that the decorator writes it to
    [llm_cache] for the default time like the analysis of a valid
    resume. *)
Theorem placeholder_analysis_is_cached :
  forall (St : Type) resume_json jd_json completed_courses clk (w : World St) key,
    is_dict resume_json = true -> has_error_key resume_json = true ->
    _generate_key [resume_json; jd_json; completed_courses] [] = Ret key ->
    lookup key (cache (llm_cache w)) = None ->
    can_store (llm_cache w) (default_ttl (llm_cache w)) clk ->
    exists result w2 e,
      (forall request : body_t St,
          cache_llm_result (analyze_gap request)
            [resume_json; jd_json; completed_courses] [] clk w = (Ret result, w2)) /\
      dict_get result "overall_score" PNone = PInt 0 /\
      llm_cacheable result = true /\
      lookup key (cache (llm_cache w2)) = Some e /\ value e = result /\
      expires_at e = at_set clk + default_ttl (llm_cache w) * 1000000 /\
      api_cache w2 = api_cache w /\ rest w2 = rest w.
Proof.
  intros St resume_json jd_json completed_courses clk w key Hd He Hk Habs Hcan.
  pose proof Hcan as (Hwf & Hm & _ & _).
  eexists. eexists. eexists. split; [| split; [| split; [| split; [| split]]]].
  - intros request.
    rewrite (llm_miss_runs St (analyze_gap request) _ [] clk w key eq_refl eq_refl Hk Habs).
    unfold llm_call_and_cache, mbind, analyze_gap, def.
    cbn [bind_arguments bind_positional bind bind_keywords fst snd existsb app
         param lookup String.eqb Ascii.eqb Bool.eqb].
    cbv beta iota. rewrite Hd, He. cbn [andb]. unfold mret at 1.
    cbn [is_dict has_error_key contains lookup String.eqb Ascii.eqb Bool.eqb andb negb].
    rewrite (llm_set_entry St _ _ [] clk w key eq_refl Hk Hcan).
    unfold mret. reflexivity.
  - reflexivity.
  - reflexivity.
  - cbn [llm_cache cache with_cache]. apply (lookup_stored_eq _ key _ _ Hm Hwf).
  - reflexivity.
  - cbn [expires_at api_cache rest]. auto.
Qed.

(** X24: a resume suggestion is a text, and the decorator writes
    dictionaries only: when no entry is held for the key of the call,
    [generate_resume_content] behaves under the decorator as it does
    without, so that every such call asks the model again. *)
Theorem resume_suggestions_are_never_cached :
  forall (St : Type) (request : list (string * pyval) -> M St string)
         args kwargs clk (w : World St) key,
    forced kwargs = false -> contains "self" kwargs = false ->
    _generate_key args kwargs = Ret key ->
    lookup key (cache (llm_cache w)) = None ->
    cache_llm_result (generate_resume_content request) args kwargs clk w =
    generate_resume_content request args kwargs w.
Proof.
  intros St request args kwargs clk w key Hnf Hs Hk Habs.
  rewrite (llm_miss_runs St _ args kwargs clk w key Hnf Hs Hk Habs).
  unfold llm_call_and_cache, generate_resume_content, def, mbind.
  destruct (bind_arguments _ args kwargs) as [bound|e]; [| reflexivity].
  destruct (request bound w) as [[content|e] w1]; reflexivity.
Qed.

(* ================================================================== *)
(** * Instances of the further properties *)

Lemma five_entries_wf : wf five_entries.
Proof.
  apply (reachable_inv 10 3600 five_entries); [lia | exact five_entries_reachable].
Qed.

Lemma five_entries_size : size five_entries <= max_size five_entries.
Proof. vm_compute. discriminate. Qed.

Lemma counting_leaves_api_cache r : leaves_api_cache (counting r).
Proof. intros args kwargs w. reflexivity. Qed.

Lemma can_store_world0 (w : World nat) ttl :
  llm_cache w = llm_cache world0 -> 0 <= ttl <= 86400 ->
  can_store (llm_cache w) ttl clock0.
Proof.
  intros -> H. unfold can_store, wf, valid_datetime, datetime_max. simpl.
  repeat split; try lia. constructor.
Qed.

Lemma set_of_stored_key_replaces_witness :
  exists c',
    set five_entries (PInt 9) [PStr "a"] (PInt 5) [] 0 0 = Ret c' /\
    size c' = size five_entries /\
    lookup "92eb5ffee6ae2fec3ad71c777531578f" (cache c') =
    lookup "92eb5ffee6ae2fec3ad71c777531578f" (cache five_entries).
Proof.
  assert (Hk : _generate_key [PStr "a"] [] = Ret "0cc175b9c0f1b6a831c399e269772661")
    by (vm_compute; reflexivity).
  assert (Hl : lookup "0cc175b9c0f1b6a831c399e269772661" (cache five_entries) =
               Some (Entry (PInt 1) 1000000 0)) by (vm_compute; reflexivity).
  assert (H0 : valid_datetime 0) by (vm_compute; split; discriminate).
  assert (H1 : valid_datetime (0 + 5 * 1000000)) by (vm_compute; split; discriminate).
  destruct (set_of_stored_key_replaces five_entries (PInt 9) [PStr "a"] 5 [] 0 0
              _ _ five_entries_wf five_entries_size Hk Hl H0 H1)
    as (c' & Hs & _ & Hsz & Hother).
  exists c'. split; [exact Hs | split; [exact Hsz |]].
  apply Hother. discriminate.
Defined.

Lemma set_keeps_other_entries_witness :
  exists c',
    set five_entries (PInt 6) [PStr "f"] PNone [] 0 0 = Ret c' /\
    (lookup "0cc175b9c0f1b6a831c399e269772661" (cache c') =
     lookup "0cc175b9c0f1b6a831c399e269772661" (cache five_entries) \/
     (lookup "0cc175b9c0f1b6a831c399e269772661" (cache c') = None /\
      lookup "8fa14cdd754f91cc6554c9e71929cce7" (cache five_entries) = None /\
      size five_entries = max_size five_entries /\
      hd_error (keys (cache five_entries)) = Some "0cc175b9c0f1b6a831c399e269772661")).
Proof.
  assert (Hk : _generate_key [PStr "f"] [] = Ret "8fa14cdd754f91cc6554c9e71929cce7")
    by (vm_compute; reflexivity).
  assert (H0 : valid_datetime 0) by (vm_compute; split; discriminate).
  assert (H1 : valid_datetime (0 + default_ttl five_entries * 1000000))
    by (vm_compute; split; discriminate).
  pose proof (set_default_returns five_entries (PInt 6) [PStr "f"] [] 0 0 _ Hk H0 H1)
    as Hs.
  eexists. split; [exact Hs |].
  apply (set_keeps_other_entries five_entries (PInt 6) [PStr "f"] PNone [] 0 0 _
           "8fa14cdd754f91cc6554c9e71929cce7" "0cc175b9c0f1b6a831c399e269772661"
           five_entries_wf five_entries_size Hs Hk).
  discriminate.
Defined.

Lemma get_keeps_other_entries_witness :
  exists c',
    get five_entries [PStr "a"] [] 0 = Ret (PInt 1, c') /\
    lookup "92eb5ffee6ae2fec3ad71c777531578f" (cache c') =
    lookup "92eb5ffee6ae2fec3ad71c777531578f" (cache five_entries) /\
    max_size c' = 10.
Proof.
  assert (Hk : _generate_key [PStr "a"] [] = Ret "0cc175b9c0f1b6a831c399e269772661")
    by (vm_compute; reflexivity).
  assert (Hg : get five_entries [PStr "a"] [] 0 =
               Ret (PInt 1,
                    with_cache five_entries
                      (od_move_to_end "0cc175b9c0f1b6a831c399e269772661"
                         (cache five_entries))))
    by (vm_compute; reflexivity).
  destruct (get_keeps_other_entries five_entries [PStr "a"] [] 0 _ _ _
              five_entries_wf Hg Hk) as (_ & Hother & _ & Hmax & _).
  eexists. split; [exact Hg |]. split.
  - apply Hother. discriminate.
  - exact Hmax.
Defined.

Lemma zero_capacity_stores_nothing_witness :
  exists c',
    set (__init__ 0 3600) (PInt 1) [PStr "a"] PNone [] 0 0 = Ret c' /\
    cache c' = [] /\ size c' = 0.
Proof.
  assert (Hm : 0 <= 0) by lia.
  assert (Hk : _generate_key [PStr "a"] [] = Ret "0cc175b9c0f1b6a831c399e269772661")
    by (vm_compute; reflexivity).
  assert (H0 : valid_datetime 0) by (vm_compute; split; discriminate).
  assert (H1 : valid_datetime (0 + default_ttl (__init__ 0 3600) * 1000000))
    by (vm_compute; split; discriminate).
  pose proof (set_default_returns (__init__ 0 3600) (PInt 1) [PStr "a"] [] 0 0 _
                Hk H0 H1) as Hs.
  destruct (zero_capacity_stores_nothing 0 3600 (__init__ 0 3600) Hm
              (reach_init 0 3600)) as (_ & He & _).
  eexists. split; [exact Hs |].
  pose proof (He _ _ _ _ _ _ _ Hs) as Hc.
  split; [exact Hc |]. unfold size. now rewrite Hc.
Defined.

Lemma cleanup_leaves_the_live_and_is_idempotent_witness :
  cleanup (snd (cleanup five_entries 10000000)) 10000000 =
  (0, snd (cleanup five_entries 10000000)).
Proof.
  destruct (cleanup_leaves_the_live_and_is_idempotent five_entries 10000000
              five_entries_wf) as [_ H].
  apply H. lia.
Defined.

Lemma cleanup_does_not_change_get_witness :
  exists c'',
    get (snd (cleanup five_entries 10000000)) [PStr "b"] [] 10000000 =
    Ret (PInt 2, c'').
Proof.
  assert (Hg : get five_entries [PStr "b"] [] 10000000 =
               Ret (PInt 2,
                    with_cache five_entries
                      (od_move_to_end "92eb5ffee6ae2fec3ad71c777531578f"
                         (cache five_entries))))
    by (vm_compute; reflexivity).
  exact (cleanup_does_not_change_get five_entries [PStr "b"] [] 10000000 _ _
           five_entries_wf Hg).
Defined.

Lemma clear_resets_the_cache_witness :
  clear five_entries = __init__ 10 3600 /\ size (clear five_entries) = 0.
Proof.
  destruct (clear_resets_the_cache 10 3600 five_entries five_entries_reachable)
    as (_ & _ & H1 & H2).
  split; [exact H1 | exact H2].
Defined.

Lemma key_is_32_hex_digits_witness :
  String.length "8ce4b16b22b58894aa86c421e8759df3" = 32%nat /\
  all_chars is_hex "8ce4b16b22b58894aa86c421e8759df3" = true.
Proof.
  assert (Hk : _generate_key [PStr "k"] [] = Ret "8ce4b16b22b58894aa86c421e8759df3")
    by (vm_compute; reflexivity).
  exact (key_is_32_hex_digits [PStr "k"] [] _ Hk).
Defined.

Lemma function_name_separates_key_texts_witness :
  "parse_resume|x" <> "parse_jd|x".
Proof.
  assert (Hn : "parse_resume" <> "parse_jd") by discriminate.
  assert (H1 : key_string [PStr "parse_resume"; PStr "x"] [] = Ret "parse_resume|x")
    by (vm_compute; reflexivity).
  assert (H2 : key_string [PStr "parse_jd"; PStr "x"] [] = Ret "parse_jd|x")
    by (vm_compute; reflexivity).
  exact (function_name_separates_key_texts "parse_resume" "parse_jd" [PStr "x"] []
           _ _ Hn H1 H2).
Defined.

Lemma cached_result_is_served_without_execution_witness :
  exists w2 w3,
    cache_llm_result (counting (Ret (PDict [("skills", PList [PStr "python"])])))
      [PStr "resume text"] [] clock0 world0 =
      (Ret (PDict [("skills", PList [PStr "python"])]), w2) /\
    cache_llm_result (counting (Raise (Failure "unreachable")))
      [PStr "resume text"] [] clock0 w2 =
      (Ret (PDict [("skills", PList [PStr "python"])]), w3) /\
    rest w3 = rest w2.
Proof.
  assert (Hk : _generate_key [PStr "resume text"] [] =
               Ret "e55565f443845382afaf88933d480c5b") by (vm_compute; reflexivity).
  assert (Hg : llm_get [PStr "resume text"] [] clock0 world0 = (Ret PNone, world0))
    by (vm_compute; reflexivity).
  assert (Hlive : at_get clock0 <=
                  at_set clock0 +
                  default_ttl (llm_cache (MkWorld (llm_cache world0) (api_cache world0)
                                            1%nat)) * 1000000)
    by (vm_compute; discriminate).
  destruct (cached_result_is_served_without_execution nat
              (counting (Ret (PDict [("skills", PList [PStr "python"])])))
              (counting (Raise (Failure "unreachable")))
              [PStr "resume text"] [] clock0 clock0
              world0 world0 (MkWorld (llm_cache world0) (api_cache world0) 1%nat)
              (PDict [("skills", PList [PStr "python"])]) _
              eq_refl eq_refl Hk Hg eq_refl eq_refl
              (can_store_world0_llm _ eq_refl) Hlive)
    as (w2 & w3 & H1 & H2 & H3 & _).
  exists w2, w3. auto.
Defined.

Lemma api_result_is_served_for_ttl_seconds_witness :
  exists w2,
    cache_api_response 60 "ping" (counting (Ret (PStr "pong"))) [] [] clock0 world0 =
      (Ret (PStr "pong"), w2) /\
    (exists w3,
        cache_api_response 60 "ping" (counting (Raise (Failure "unreachable")))
          [] [] (MkClock 60000000 0 0) w2 = (Ret (PStr "pong"), w3)) /\
    (exists w3,
        api_get "ping" [] [] (MkClock 60000001 0 0) w2 = (Ret PNone, w3) /\
        lookup "df911f0151f9ef021d410b4be5060972" (cache (api_cache w3)) = None).
Proof.
  assert (Hk : _generate_key [PStr "ping"] [] = Ret "df911f0151f9ef021d410b4be5060972")
    by (vm_compute; reflexivity).
  assert (Hg : api_get "ping" [] [] clock0 world0 = (Ret PNone, world0))
    by (vm_compute; reflexivity).
  destruct (api_result_is_served_for_ttl_seconds nat
              (counting (Ret (PStr "pong")))
              (counting (Raise (Failure "unreachable")))
              60 "ping" [] [] clock0 (MkClock 60000000 0 0)
              world0 world0 (MkWorld (llm_cache world0) (api_cache world0) 1%nat)
              (PStr "pong") _ eq_refl Hk Hg eq_refl eq_refl eq_refl
              (can_store_world0_api _ eq_refl))
    as (w2 & H1 & Hhit & _).
  destruct (api_result_is_served_for_ttl_seconds nat
              (counting (Ret (PStr "pong")))
              (counting (Raise (Failure "unreachable")))
              60 "ping" [] [] clock0 (MkClock 60000001 0 0)
              world0 world0 (MkWorld (llm_cache world0) (api_cache world0) 1%nat)
              (PStr "pong") _ eq_refl Hk Hg eq_refl eq_refl eq_refl
              (can_store_world0_api _ eq_refl))
    as (w2' & H1' & _ & Hmiss).
  assert (E : w2' = w2) by congruence. subst w2'.
  exists w2. split; [exact H1 |]. split.
  - destruct Hhit as (w3 & H & _); [vm_compute; discriminate |]. eauto.
  - destruct Hmiss as (w3 & Ha & Hb & _); [vm_compute; reflexivity |]. eauto.
Defined.

Lemma failed_call_is_retried_witness :
  cache_llm_result (counting (Raise (Failure "timeout"))) [PStr "resume"] []
    clock0 world0 =
  (Raise (Failure "timeout"), MkWorld (llm_cache world0) (api_cache world0) 1%nat) /\
  cache_api_response 60 "ping" (counting (Ret (PDict [("error", PStr "down")])))
    [PStr "resume"] [] clock0 world0 =
  (Ret (PDict [("error", PStr "down")]),
   MkWorld (llm_cache world0) (api_cache world0) 1%nat).
Proof.
  split.
  - destruct (failed_call_is_retried nat
                (counting (Raise (Failure "timeout")))
                (counting (Raise (Failure "timeout")))
                60 "ping" [PStr "resume"] [] clock0 clock0 world0 _ _
                eq_refl eq_refl) as [H _].
    assert (Hk : _generate_key [PStr "resume"] [] =
                 Ret "69f2afc2390cec954f7c208b07212d39") by (vm_compute; reflexivity).
    exact (proj1 (H _ eq_refl Hk eq_refl I eq_refl)).
  - destruct (failed_call_is_retried nat
                (counting (Ret (PDict [("error", PStr "down")])))
                (counting (Ret (PDict [("error", PStr "down")])))
                60 "ping" [PStr "resume"] [] clock0 clock0 world0 _ _
                eq_refl eq_refl) as [_ H].
    assert (Hk : _generate_key [PStr "ping"; PStr "resume"] [] =
                 Ret (md5_hexdigest "ping|resume")) by reflexivity.
    refine (proj1 (H _ Hk _ eq_refl eq_refl)).
    vm_compute. reflexivity.
Defined.

Lemma underivable_key_stops_the_call_witness :
  cache_llm_result (counting (Ret (PDict []))) [PList [PObj "<Session>"]] []
    clock0 world0 = (Raise TypeError, world0) /\
  cache_api_response 60 "list_resumes" (counting (Ret (PDict [])))
    [PList [PObj "<Session>"]] [] clock0 world0 = (Raise TypeError, world0).
Proof.
  assert (Hk : _generate_key [PList [PObj "<Session>"]] [] = Raise TypeError)
    by (vm_compute; reflexivity).
  destruct (underivable_key_stops_the_call nat (counting (Ret (PDict [])))
              60 "list_resumes" [PList [PObj "<Session>"]] [] clock0 world0 _ Hk)
    as (H1 & _ & H2).
  split; [exact (H1 eq_refl) | exact H2].
Defined.

Lemma decorators_use_separate_caches_witness :
  api_cache (snd (cache_llm_result (counting (Ret (PDict [("score", PInt 7)])))
                    [PStr "resume"] [] clock0 world0)) = api_cache world0 /\
  llm_cache (snd (cache_api_response 60 "ping" (counting (Ret (PStr "pong")))
                    [] [] clock0 world0)) = llm_cache world0.
Proof.
  split.
  - exact (proj1 (decorators_use_separate_caches nat
                    (counting (Ret (PDict [("score", PInt 7)])))
                    60 "ping" [PStr "resume"] [] clock0 world0)
             (counting_leaves_api_cache _)).
  - exact (proj1 (proj2 (decorators_use_separate_caches nat
                           (counting (Ret (PStr "pong")))
                           60 "ping" [] [] clock0 world0))
             (counting_leaves_llm_cache _)).
Defined.

Lemma wrapped_calls_keep_the_caches_bounded_witness :
  size (llm_cache (snd (cache_llm_result (counting (Ret (PDict [("score", PInt 7)])))
                          [PStr "resume"] [] clock0 world0))) <= 500.
Proof.
  destruct (wrapped_calls_keep_the_caches_bounded nat
              (counting (Ret (PDict [("score", PInt 7)])))
              60 "ping" [PStr "resume"] [] clock0 world0 _
              (counting_leaves_llm_cache _) (counting_leaves_api_cache _)
              (reach_init 500 86400) (reach_init 1000 300) (or_introl eq_refl))
    as (_ & _ & H & _).
  exact H.
Defined.

Lemma ttl_keyword_is_taken_by_set_witness :
  _generate_key [PStr "resume"] [("ttl", PInt 5)] =
    Ret "7d2e176a07bceb16932dc9198252eb76" /\
  map (fun kv => (fst kv, expires_at (snd kv)))
    (cache (llm_cache (snd (cache_llm_result
                              (counting (Ret (PDict [("score", PInt 7)])))
                              [PStr "resume"] [("ttl", PInt 5)] clock0 world0)))) =
  [("69f2afc2390cec954f7c208b07212d39", 5000000)].
Proof.
  split; [vm_compute; reflexivity |].
  assert (Hk : _generate_key [PStr "resume"] (without "ttl" [("ttl", PInt 5)]) =
               Ret "69f2afc2390cec954f7c208b07212d39") by (vm_compute; reflexivity).
  assert (Hg : llm_get [PStr "resume"] [("ttl", PInt 5)] clock0 world0 =
               (Ret PNone, world0)) by (vm_compute; reflexivity).
  assert (Hc : can_store
                 (llm_cache (MkWorld (llm_cache world0) (api_cache world0) 1%nat))
                 5 clock0) by (apply can_store_world0; [reflexivity | lia]).
  rewrite (ttl_keyword_is_taken_by_set nat
             (counting (Ret (PDict [("score", PInt 7)])))
             [PStr "resume"] [("ttl", PInt 5)] clock0 world0 world0
             (MkWorld (llm_cache world0) (api_cache world0) 1%nat)
             (PDict [("score", PInt 7)]) 5 _
             eq_refl eq_refl eq_refl eq_refl Hk Hg eq_refl eq_refl Hc).
  vm_compute. reflexivity.
Defined.

Lemma parameter_named_keywords_raise_witness :
  cache_api_response 60 "ping" (counting (Ret (PStr "pong"))) []
    [("self", PInt 1)] clock0 world0 = (Raise TypeError, world0) /\
  cache_api_response 60 "ping" (counting (Ret (PStr "pong"))) []
    [("ttl", PInt 1)] clock0 world0 =
  (Raise TypeError, MkWorld (llm_cache world0) (api_cache world0) 1%nat).
Proof.
  destruct (parameter_named_keywords_raise nat (counting (Ret (PStr "pong")))
              60 "ping" [] [("self", PInt 1)] clock0 world0) as (H1 & _ & _).
  destruct (parameter_named_keywords_raise nat (counting (Ret (PStr "pong")))
              60 "ping" [] [("ttl", PInt 1)] clock0 world0) as (_ & _ & H3).
  split.
  - exact (proj2 (H1 eq_refl)).
  - apply (H3 world0 _ (PStr "pong")); reflexivity.
Defined.

Lemma oversize_file_is_rejected_unread_witness :
  extract_text_from_pdf (fun _ => PdfRet [PdfRet "page one"])
    (repeat 0 (Z.to_nat (size_limit + 1))) 50 =
  PdfRaise (E := unit) (ValueError "PDF file too large (max 10MB)").
Proof.
  apply oversize_file_is_rejected_unread.
  rewrite repeat_length. unfold size_limit. lia.
Defined.

Lemma extracted_text_is_the_first_pages_joined_witness :
  extract_text_from_pdf
    (fun _ => PdfRet [PdfRet "one"; PdfRet ""; PdfRet "three";
                      PdfRaise (ReaderError tt)])
    [37; 80; 68; 70] 3 =
  PdfRet ("one" ++ newline ++ "three").
Proof.
  rewrite (extracted_text_is_the_first_pages_joined unit _ [37; 80; 68; 70] 3
             [PdfRet "one"; PdfRet ""; PdfRet "three"; PdfRaise (ReaderError tt)]).
  - reflexivity.
  - vm_compute. discriminate.
  - reflexivity.
Defined.

Lemma pages_past_the_limit_are_not_read_witness :
  extract_text_from_pdf
    (fun _ => PdfRet [PdfRet "one"; PdfRaise (ReaderError tt)]) [37; 80; 68; 70] 1 =
  extract_text_from_pdf
    (fun _ => PdfRet [PdfRet "one"; PdfRet "two"; PdfRet "three"]) [37; 80] 1.
Proof.
  refine (proj1 (pages_past_the_limit_are_not_read unit
                   (fun _ => PdfRet [PdfRet "one"; PdfRaise (ReaderError tt)])
                   (fun _ => PdfRet [PdfRet "one"; PdfRet "two"; PdfRet "three"])
                   [37; 80; 68; 70] [37; 80] 1 _ _ _ _ eq_refl eq_refl) eq_refl).
  - vm_compute. discriminate.
  - vm_compute. discriminate.
Defined.

Lemma llm_functions_reject_force_analyze_witness :
  cache_llm_result (analyze_gap (fun _ => mret (PDict [("overall_score", PInt 80)])))
    [PDict []; PDict []] [("force_analyze", PBool true)] clock0 world0 =
  (Raise TypeError, world0).
Proof.
  destruct (llm_functions_reject_force_analyze nat
              (fun _ => mret (PDict [("overall_score", PInt 80)]))
              (fun _ => mret "text")
              [PDict []; PDict []] [("force_analyze", PBool true)] clock0 world0
              eq_refl) as (_ & _ & H & _).
  exact H.
Defined.

Lemma placeholder_analysis_is_cached_witness :
  exists result w2 e,
    cache_llm_result (analyze_gap (fun _ => mret (PDict [("overall_score", PInt 80)])))
      [PDict [("error", PStr "bad")]; PDict []; PList []] [] clock0 world0 =
      (Ret result, w2) /\
    dict_get result "overall_score" PNone = PInt 0 /\
    lookup "ae6e95a52574f8cb09250f3cc869fc08" (cache (llm_cache w2)) = Some e /\
    value e = result.
Proof.
  assert (Hk : _generate_key [PDict [("error", PStr "bad")]; PDict []; PList []] [] =
               Ret "ae6e95a52574f8cb09250f3cc869fc08") by (vm_compute; reflexivity).
  destruct (placeholder_analysis_is_cached nat
              (PDict [("error", PStr "bad")]) (PDict []) (PList []) clock0 world0 _
              eq_refl eq_refl Hk eq_refl (can_store_world0_llm _ eq_refl))
    as (result & w2 & e & H1 & H2 & _ & H4 & H5 & _).
  exists result, w2, e. split; [apply H1 | repeat split; trivial].
Defined.

Lemma resume_suggestions_are_never_cached_witness :
  cache_llm_result (generate_resume_content (fun _ => mret "Built a parser."))
    [PStr "task"; PStr "course"] [] clock0 world0 =
  (Ret (PStr "Built a parser."), world0).
Proof.
  assert (Hk : _generate_key [PStr "task"; PStr "course"] [] =
               Ret "6c13143b10e6bfacc09d81770370af10") by (vm_compute; reflexivity).
  rewrite (resume_suggestions_are_never_cached nat
             (fun _ => mret "Built a parser.")
             [PStr "task"; PStr "course"] [] clock0 world0 _
             eq_refl eq_refl Hk eq_refl).
  reflexivity.
Defined.

(* ================================================================== *)
(** * The upload of a resume *)

Lemma file_read_all size (file : list Z) :
  Z.of_nat (List.length file) <= size -> file_read size file = (file, []).
Proof.
  intros H. unfold file_read.
  rewrite firstn_all2 by lia. rewrite skipn_all2 by lia. reflexivity.
Qed.

Lemma file_read_more size (file : list Z) :
  0 <= size < Z.of_nat (List.length file) ->
  exists b r, skipn (Z.to_nat size) file = b :: r.
Proof.
  intros H. destruct (skipn (Z.to_nat size) file) as [|b r] eqn:E; [| eauto].
  pose proof (length_skipn (Z.to_nat size) file) as Hl. rewrite E in Hl.
  simpl in Hl. lia.
Qed.

(** X25: an authorised upload of a PDF is refused with status 400 when the
    file has more than 10 MiB, and goes on with the whole file as content
    otherwise.  The content that reaches [extract_text_from_pdf] is thus
    never over its limit: the outcome of the extraction is that of the
    reader and of the pages, not the [ValueError] of the size check. *)
Theorem upload_checks_the_size_first :
  forall (R E : Type) (process : list Z -> R)
         (PdfReader : list Z -> pdf_outcome E (list (Page E)))
         user_id content_type file,
    content_type = "application/pdf" ->
    (size_limit < Z.of_nat (List.length file) ->
     upload_resume process user_id user_id content_type file =
     HTTPException 400 "PDF file too large (max 10MB)") /\
    (Z.of_nat (List.length file) <= size_limit ->
     upload_resume process user_id user_id content_type file =
     Proceeds (process file) /\
     upload_resume (fun content => extract_text_from_pdf PdfReader content 50)
       user_id user_id content_type file =
     Proceeds
       match PdfReader file with
       | PdfRaise e => PdfRaise e
       | PdfRet pages =>
           match page_texts (firstn 50 pages) with
           | PdfRet l => PdfRet (join newline (filter nonempty l))
           | PdfRaise e => PdfRaise e
           end
       end).
Proof.
  intros R E process PdfReader user_id content_type file ->.
  assert (U : forall (R' : Type) (p : list Z -> R'),
             upload_resume p user_id user_id "application/pdf" file =
             match fst (file_read 1 (snd (file_read (10 * 1024 * 1024) file))) with
             | _ :: _ => HTTPException 400 "PDF file too large (max 10MB)"
             | [] => Proceeds (p (fst (file_read (10 * 1024 * 1024) file)))
             end).
  { intros R' p. unfold upload_resume. rewrite Z.eqb_refl, String.eqb_refl.
    cbn [negb]. now destruct (file_read (10 * 1024 * 1024) file). }
  unfold size_limit. split.
  - intros H. rewrite U.
    destruct (file_read_more (10 * 1024 * 1024) file) as (b & r & Hs); [lia |].
    unfold file_read at 2. cbn [snd]. rewrite Hs. reflexivity.
  - intros H. rewrite !U, (file_read_all _ file H). cbn [fst snd].
    change (fst (file_read 1 [])) with (@nil Z). cbv iota.
    split; [reflexivity |]. f_equal.
    destruct (PdfReader file) as [pages|e] eqn:Er.
    + now rewrite (extract_text_within_limit E PdfReader file 50 pages H Er).
    + unfold extract_text_from_pdf. rewrite Er.
      destruct (Z.gtb_spec (Z.of_nat (List.length file)) (10 * 1024 * 1024)); [lia |].
      reflexivity.
Qed.

Lemma upload_checks_the_size_first_witness :
  upload_resume
    (fun content =>
       extract_text_from_pdf
         (fun _ => PdfRet [PdfRet "one"; PdfRet "two"]) content 50)
    7 7 "application/pdf" [37; 80; 68; 70] =
  Proceeds (PdfRet (E := unit) ("one" ++ newline ++ "two")) /\
  upload_resume (fun content => content) 7 7 "application/pdf"
    (repeat 0 (Z.to_nat (size_limit + 1))) =
  HTTPException 400 "PDF file too large (max 10MB)".
Proof.
  split.
  - destruct (upload_checks_the_size_first
                (pdf_outcome unit string) unit
                (fun content =>
                   extract_text_from_pdf
                     (fun _ => PdfRet [PdfRet "one"; PdfRet "two"]) content 50)
                (fun _ => PdfRet [PdfRet "one"; PdfRet "two"])
                7 "application/pdf" [37; 80; 68; 70] eq_refl) as [_ H].
    destruct H as [_ H]; [vm_compute; discriminate |].
    rewrite H. reflexivity.
  - destruct (upload_checks_the_size_first (list Z) unit (fun content => content)
                (fun _ => PdfRet [])
                7 "application/pdf" (repeat 0 (Z.to_nat (size_limit + 1))) eq_refl)
      as [H _].
    apply H. rewrite repeat_length. unfold size_limit. lia.
Defined.
